(** * mcabber_merge_history: a shallow embedding of [mcabber_merge_history.c]

    The development follows the source file top-down: the C library calls
    the program relies on, the [hist_entry] structure, the bubble sort and
    its comparator, the record reader and writer, the history loader, the
    merge loop and finally the file- and directory-level drivers over a small
    model of the file system. *)

From Stdlib Require Import ZArith Ascii String List Sorted Permutation Lia.
From stdpp Require Import base option list sorting gmap strings.

Local Open Scope string_scope.
Local Open Scope list_scope.
Local Open Scope Z_scope.

(** ** The C library, as far as the program uses it *)

Module CLib.

Definition NUL : ascii := "000"%char.
Definition LF : ascii := "010"%char.
Definition SP : ascii := " "%char.

(** A [char] buffer is modelled by the bytes stored in it, the closing NUL
    left implicit.  The C string it holds stops at the first NUL byte. *)
Fixpoint c_str (buf : string) : string :=
  match buf with
  | EmptyString => EmptyString
  | String c buf' => if Ascii.eqb c NUL then EmptyString else String c (c_str buf')
  end.

Definition strlen (buf : string) : nat := String.length (c_str buf).

(** [strcmp] compares the two C strings as sequences of unsigned bytes.
    Only the sign of its result is specified: [Lt] stands for a negative
    value, [Eq] for zero and [Gt] for a positive one. *)
Definition strcmp (a b : string) : comparison :=
  String.compare (c_str a) (c_str b).

(** [isspace] and [isdigit] in the C locale. *)
Definition isspace (c : ascii) : bool :=
  let n := N_of_ascii c in
  ((9 <=? n) && (n <=? 13))%N || (n =? 32)%N.

Definition digit_val (c : ascii) : option Z :=
  let n := N_of_ascii c in
  if ((48 <=? n) && (n <=? 57))%N then Some (Z.of_N n - 48) else None.

Fixpoint skip_spaces (s : string) : string :=
  match s with
  | String c s' => if isspace c then skip_spaces s' else s
  | EmptyString => EmptyString
  end.

Fixpoint digits (s : string) (acc : Z) : Z :=
  match s with
  | String c s' =>
      match digit_val c with
      | Some d => digits s' (10 * acc + d)
      | None => acc
      end
  | EmptyString => acc
  end.

(** [atoi]: leading white space, an optional sign, then decimal digits up
    to the first other byte.  The program applies it to a buffer of three
    bytes, so the value always fits an [int]. *)
Definition atoi (buf : string) : Z :=
  match skip_spaces (c_str buf) with
  | String "-" s => - digits s 0
  | String "+" s => digits s 0
  | s => digits s 0
  end.

(** An input stream is the sequence of bytes not yet read. *)
Definition FILE_in := string.
(** An output stream is the sequence of bytes written so far. *)
Definition FILE_out := string.

(** [fgets buf size fh] stores at most [size - 1] bytes and stops after a
    newline or at the end of input; [fgets_bytes k] reads at most [k]
    bytes this way.  It returns the bytes stored and the rest of the
    stream.  At the end of input the buffer is left as it was, and the
    program only passes buffers that [calloc] has zeroed. *)
Fixpoint fgets_bytes (k : nat) (fh : FILE_in) : string * FILE_in :=
  match k with
  | O => (EmptyString, fh)
  | S k' =>
      match fh with
      | EmptyString => (EmptyString, EmptyString)
      | String c fh' =>
          if Ascii.eqb c LF then (String c EmptyString, fh')
          else let '(buf, rest) := fgets_bytes k' fh' in (String c buf, rest)
      end
  end.

Definition fgets (size : nat) (fh : FILE_in) : string * FILE_in :=
  fgets_bytes (Nat.pred size) fh.

(** [fgetc], its result dropped. *)
Definition fgetc (fh : FILE_in) : FILE_in :=
  match fh with
  | EmptyString => EmptyString
  | String _ fh' => fh'
  end.

(** The bytes up to and including the next newline, or up to the end of
    input. *)
Fixpoint read_line (fh : FILE_in) : string * FILE_in :=
  match fh with
  | EmptyString => (EmptyString, EmptyString)
  | String c fh' =>
      if Ascii.eqb c LF then (String c EmptyString, fh')
      else let '(l, rest) := read_line fh' in (String c l, rest)
  end.

(** [getline] on a fresh buffer: [None] stands for the result -1, given
    when the input ends before any byte is read. *)
Definition getline (fh : FILE_in) : option (string * FILE_in) :=
  match fh with
  | EmptyString => None
  | _ => Some (read_line fh)
  end.

Definition fputs (s : string) (out : FILE_out) : FILE_out := out +:+ c_str s.
Definition fputc (c : ascii) (out : FILE_out) : FILE_out := out +:+ String c EmptyString.

End CLib.

Import CLib.

(** ** Outcomes of a run *)

(** A call either returns, or runs into undefined behaviour of the C program,
    or (in this model only) uses up the fuel that bounds a loop. *)
Inductive outcome (A : Type) : Type :=
  | Done (a : A)
  | Undefined
  | OutOfFuel.
Arguments Done {A} a.
Arguments Undefined {A}.
Arguments OutOfFuel {A}.

Definition obind {A B : Type} (m : outcome A) (k : A -> outcome B) : outcome B :=
  match m with
  | Done a => k a
  | Undefined => Undefined
  | OutOfFuel => OutOfFuel
  end.

Notation "'let*' x ':=' m 'in' k" := (obind m (fun x => k))
  (at level 10, x name, m at level 100, k at level 200).

(** ** History entries *)

(** [struct hist_entry].  The three fixed buffers and every element of the
    NULL-terminated array [lines] hold the bytes read into them. *)
Record hist_entry := mk_hist_entry {
  type : string;
  timestamp : string;
  follow_lines : string;
  lines : list string
}.

(** What a [struct hist_entry *] of the program points at.  [read_entry]
    hands out an entry without a line array when the count of following
    lines is below -1: [calloc] is then asked for no byte at all, or for a
    size beyond any block, and [lines] is NULL or has no room for the
    terminator.  The three buffers of such an entry are filled; its [lines]
    cannot be read. *)
Inductive entry_ptr :=
  | Lined (entry : hist_entry)
  | Unlined (ty ts fl : string).

Coercion Lined : hist_entry >-> entry_ptr.

Definition ptr_timestamp (p : entry_ptr) : string :=
  match p with
  | Lined entry => timestamp entry
  | Unlined _ ts _ => ts
  end.

(** [free_hist_entry] walks [lines] up to the terminator. *)
Definition free_hist_entry (p : entry_ptr) : outcome unit :=
  match p with
  | Lined _ => Done tt
  | Unlined _ _ _ => Undefined
  end.

(** ** Generic bubble sort *)

Section BubbleSort.
Context {A : Type} (compare : A -> A -> comparison).

(** The loop [for (int i = 0; i < n - 1; ++i)]: [k] iterations are left,
    the next one at index [i].  The array is never read past its end,
    since [n] is at most its size; the model stops the pass there. *)
Fixpoint bubble_pass (k i : nat) (array : list A) (new_n : nat) : list A * nat :=
  match k with
  | O => (array, new_n)
  | S k' =>
      match array !! i, array !! S i with
      | Some x, Some y =>
          match compare x y with
          | Gt => bubble_pass k' (S i) (<[S i := x]> (<[i := y]> array)) (S i)
          | _ => bubble_pass k' (S i) array new_n
          end
      | _, _ => (array, new_n)
      end
  end.

(** The loop [do ... while (n > 1)]. *)
Fixpoint bubble_loop (fuel : nat) (array : list A) (n : nat) : outcome (list A) :=
  match fuel with
  | O => OutOfFuel
  | S fuel' =>
      let '(array, new_n) := bubble_pass (n - 1) 0 array 1 in
      if (1 <? new_n)%nat then bubble_loop fuel' array new_n else Done array
  end.

(** [size] reaches [bubble_sort] from the [int] counter of [read_hist],
    so the assignment [int n = size] keeps its value. *)
Definition bubble_sort (array : list A) (size : nat) : outcome (list A) :=
  bubble_loop (S size) array size.

End BubbleSort.

(** ** Comparison of entries *)

Definition cmp_hist_entry_timestamp (a b : entry_ptr) : comparison :=
  strcmp (ptr_timestamp a) (ptr_timestamp b).

(** A C condition [strcmp(a, b)]: true when the strings differ. *)
Definition differ (a b : string) : bool :=
  match strcmp a b with Eq => false | _ => true end.

(** The loop of [eq_hist_entry] over the two line arrays.  It runs while one
    of the two iterators points at a line; when only one of them does,
    [strcmp] receives the NULL terminator of the other array. *)
Fixpoint eq_lines (a_it b_it : list string) : outcome bool :=
  match a_it, b_it with
  | [], [] => Done true
  | la :: a_it', lb :: b_it' =>
      if differ la lb then Done false else eq_lines a_it' b_it'
  | _, _ => Undefined
  end.

Definition eq_hist_entry (a b : hist_entry) : outcome bool :=
  if differ (type a) (type b)
     || differ (timestamp a) (timestamp b)
     || differ (follow_lines a) (follow_lines b)
  then Done false
  else eq_lines (lines a) (lines b).

(** ** Writing and reading one entry *)

Definition write_entry (entry : hist_entry) (out_stream : FILE_out) : FILE_out :=
  let out_stream := fputs (type entry) out_stream in
  let out_stream := fputc SP out_stream in
  let out_stream := fputs (timestamp entry) out_stream in
  let out_stream := fputc SP out_stream in
  let out_stream := fputs (follow_lines entry) out_stream in
  let out_stream := fputc SP out_stream in
  fold_left (fun out it => fputs it out) (lines entry) out_stream.

(** What a call of [read_entry] gives back. *)
Inductive read_result :=
  | Entry (entry : hist_entry) (rest : FILE_in)
      (** a pointer to a filled entry; the stream is left at [rest] *)
  | Null (warned : bool)
      (** NULL; [warned] tells whether "Missing lines!" went to stderr *)
  | NoLines (ty ts fl : string) (rest : FILE_in).
      (** [2 + follow_lines] is not positive, so [calloc] gives no array with
          room for the NULL terminator and the loop over the lines has no
          iteration: the entry comes back with its three buffers filled and
          a [lines] pointer that every later use ([write_entry],
          [eq_hist_entry], [free_hist_entry]) dereferences out of bounds. *)

(** The loop [for (i = 0; i <= follow_lines; ++i)] of [read_entry], [k]
    being the number of iterations left. *)
Fixpoint read_lines (k : nat) (hist_fh : FILE_in) : option (list string * FILE_in) :=
  match k with
  | O => Some ([], hist_fh)
  | S k' =>
      match getline hist_fh with
      | None => None
      | Some (line, hist_fh) =>
          match read_lines k' hist_fh with
          | None => None
          | Some (ls, rest) => Some (line :: ls, rest)
          end
      end
  end.

Definition read_entry (hist_fh : FILE_in) : read_result :=
  let '(ty, hist_fh) := fgets 3 hist_fh in
  if negb (strlen ty =? 2)%nat then Null false
  else
    let hist_fh := fgetc hist_fh in
    let '(ts, hist_fh) := fgets 19 hist_fh in
    let hist_fh := fgetc hist_fh in
    let '(fl, hist_fh) := fgets 4 hist_fh in
    let hist_fh := fgetc hist_fh in
    let n := atoi fl in
    if n <? -1 then NoLines ty ts fl hist_fh
    else
      match read_lines (Z.to_nat (n + 1)) hist_fh with
      | None => Null true
      | Some (ls, rest) => Entry (mk_hist_entry ty ts fl ls) rest
      end.

(** ** Loading a history *)

(** [insert_hist_entry] grows the array by blocks of [pre_alloc_size]
    pointers and stores [entry] behind the last one; allocation failure is
    not modelled, so it always returns 1. *)
Definition insert_hist_entry (entries : list entry_ptr) (entry : entry_ptr)
  : list entry_ptr := entries ++ [entry].

(** The loop [while (entry = read_entry(hist_fh))]: it ends at the first
    NULL, whatever made [read_entry] return it.  An entry without a line
    array is a pointer like any other here, and is inserted. *)
Fixpoint read_hist_loop (fuel : nat) (hist_fh : FILE_in) (entries : list entry_ptr)
  : outcome (list entry_ptr) :=
  match fuel with
  | O => OutOfFuel
  | S fuel' =>
      match read_entry hist_fh with
      | Entry entry rest =>
          read_hist_loop fuel' rest (insert_hist_entry entries (Lined entry))
      | NoLines ty ts fl rest =>
          read_hist_loop fuel' rest (insert_hist_entry entries (Unlined ty ts fl))
      | Null _ => Done entries
      end
  end.

(** [read_hist] returns the array pointer [entries], which is still NULL
    ([None]) when no entry was inserted; [*n_entries] is the length of the
    list. *)
Definition read_hist (hist_fh : FILE_in) : outcome (option (list entry_ptr)) :=
  let* entries := read_hist_loop (S (String.length hist_fh)) hist_fh [] in
  let* sorted := bubble_sort cmp_hist_entry_timestamp entries (length entries) in
  Done (match sorted with [] => None | _ => Some sorted end).

(** ** Merging two histories *)

(** The entries handed to [write_entry], in the order of the calls.  The
    first list is [entries_a] from [i_a] on, the second [entries_b] from
    [i_b] on. *)
Fixpoint merge_entries (entries_a entries_b : list hist_entry)
  : outcome (list hist_entry) :=
  match entries_a with
  | [] => Done entries_b
  | a :: entries_a' =>
      (fix merge_b (entries_b : list hist_entry) : outcome (list hist_entry) :=
         match entries_b with
         | [] => Done (a :: entries_a')
         | b :: entries_b' =>
             match strcmp (timestamp a) (timestamp b) with
             | Gt => let* out := merge_b entries_b' in Done (b :: out)
             | Eq =>
                 let* same := eq_hist_entry a b in
                 let* out := merge_entries entries_a'
                           (if same then entries_b' else entries_b) in
                 Done (a :: out)
             | Lt => let* out := merge_entries entries_a' entries_b in Done (a :: out)
             end
         end) entries_b
  end.

Definition write_entries (entries : list hist_entry) (out_stream : FILE_out) : FILE_out :=
  fold_left (fun out entry => write_entry entry out) entries out_stream.

(** ** Files and directories *)

(** The [d_type] of a [struct dirent]: besides [DT_DIR] and [DT_REG], the
    program meets [DT_LNK] for a symbolic link and [DT_UNKNOWN] on a file
    system that does not tell the type. *)
Inductive d_type_t := DT_DIR | DT_REG | DT_LNK | DT_UNKNOWN.

(** A directory entry is
    - a regular file, with its inode number and its bytes;
    - a sub-directory that [readdir] reports as [DT_DIR]; the program never
      looks inside one;
    - a sub-directory that [readdir] reports otherwise: as [DT_UNKNOWN], or
      as [DT_LNK] when the entry is a symbolic link to a directory;
    - a dangling symbolic link, whose target neither exists nor can be
      created: [stat], [access] and [fopen] fail on it in every mode.
    A regular file is listed as [DT_REG]; the program treats [DT_LNK] and
    [DT_UNKNOWN] as it does [DT_REG], so that a file reported as one of them
    behaves no differently. *)
Inductive node :=
  | File (ino : Z) (data : string)
  | Directory (ino : Z)
  | OtherDirectory (reported : d_type_t) (ino : Z)
  | Dangling.

(** The inode number that [stat] gives; there is none for a dangling link,
    on which [stat] fails. *)
Definition st_ino (nd : node) : Z :=
  match nd with
  | File ino _ => ino
  | Directory ino => ino
  | OtherDirectory _ ino => ino
  | Dangling => -1
  end.

(** The file system: each directory, named by the path the program is given
    for it, maps the names of its entries to their nodes.  [next_ino] is the
    inode number the next new file receives.  Hard links, and symbolic links
    to files, are not modelled. *)
Record filesystem := mk_filesystem {
  dirs : gmap string (gmap string node);
  next_ino : Z
}.

(** The path built by [strcpy] and [strcat] from a directory, "/" and the
    name of an entry, kept as its two components. *)
Definition path : Type := string * string.

Definition lookup_path (fs : filesystem) (p : path) : option node :=
  match dirs fs !! p.1 with
  | None => None
  | Some d => d !! p.2
  end.

(** [stat] fails (-1, here [None]) when the path names nothing, or a link
    to nothing. *)
Definition stat (fs : filesystem) (p : path) : option node :=
  match lookup_path fs p with
  | Some Dangling => None
  | r => r
  end.

(** [access(p, F_OK) != -1]: like [stat], it follows links. *)
Definition access (fs : filesystem) (p : path) : bool :=
  match stat fs p with Some _ => true | None => false end.

(** [fopen(p, "r")] and [freopen(p, "r", fh)].  A directory can be opened
    for reading, but every read from it fails, as at the end of input. *)
Definition fopen_r (fs : filesystem) (p : path) : option FILE_in :=
  match lookup_path fs p with
  | None => None
  | Some (File _ data) => Some data
  | Some (Directory _) => Some EmptyString
  | Some (OtherDirectory _ _) => Some EmptyString
  | Some Dangling => None
  end.

(** [fopen(p, "w")] and [freopen(p, "w", fh)]: an existing file is emptied
    and keeps its inode, a missing one is created; opening fails on a
    directory, on a dangling link and where the parent directory is
    missing. *)
Definition fopen_w (fs : filesystem) (p : path) : option filesystem :=
  match dirs fs !! p.1 with
  | None => None
  | Some d =>
      match d !! p.2 with
      | Some (Directory _) => None
      | Some (OtherDirectory _ _) => None
      | Some Dangling => None
      | Some (File ino _) =>
          Some (mk_filesystem (<[p.1 := <[p.2 := File ino EmptyString]> d]> (dirs fs))
                              (next_ino fs))
      | None =>
          Some (mk_filesystem (<[p.1 := <[p.2 := File (next_ino fs) EmptyString]> d]> (dirs fs))
                              (next_ino fs + 1))
      end
  end.

(** The file system once [out_stream], open on the file [p], is closed. *)
Definition fclose_w (fs : filesystem) (p : path) (out_stream : FILE_out) : filesystem :=
  let set_data nd :=
    match nd with File ino _ => File ino out_stream | _ => nd end in
  mk_filesystem (alter (alter set_data p.2) p.1 (dirs fs)) (next_ino fs).

(** [free_hist_entries] frees every entry of the array. *)
Fixpoint free_hist_entries (entries : list entry_ptr) : outcome unit :=
  match entries with
  | [] => Done tt
  | entry :: entries' =>
      let* freed := free_hist_entry entry in free_hist_entries entries'
  end.

(** The entries of an array, when each of them has its line array. *)
Fixpoint lined (entries : list entry_ptr) : option (list hist_entry) :=
  match entries with
  | [] => Some []
  | Lined entry :: entries' =>
      match lined entries' with
      | Some es => Some (entry :: es)
      | None => None
      end
  | Unlined _ _ _ :: _ => None
  end.

(** [merge_files]: both inputs are loaded before the output is opened, and
    the arrays are freed on every way out that has them.  [merge_entries]
    hands each entry of the two arrays to [write_entry], unless
    [eq_hist_entry] has gone through its lines and found them those of
    another entry: both read the line array of the entry, so the call is
    [Undefined] as soon as one entry has none. *)
Definition merge_files (fs : filesystem) (file1 file2 fileO : path)
  : outcome (filesystem * Z) :=
  match fopen_r fs file1 with
  | None => Done (fs, 0)
  | Some file_fh =>
      let* r1 := read_hist file_fh in
      match r1 with
      | None => Done (fs, 0)
      | Some hist1 =>
          match fopen_r fs file2 with
          | None => let* freed := free_hist_entries hist1 in Done (fs, 0)
          | Some file_fh =>
              let* r2 := read_hist file_fh in
              match r2 with
              | None => let* freed := free_hist_entries hist1 in Done (fs, 0)
              | Some hist2 =>
                  match fopen_w fs fileO with
                  | None =>
                      let* freed := free_hist_entries hist1 in
                      let* freed := free_hist_entries hist2 in
                      Done (fs, 0)
                  | Some fs =>
                      match lined hist1, lined hist2 with
                      | Some entries_a, Some entries_b =>
                          let* written := merge_entries entries_a entries_b in
                          let* freed := free_hist_entries hist1 in
                          let* freed := free_hist_entries hist2 in
                          Done (fclose_w fs fileO (write_entries written EmptyString), 1)
                      | _, _ => Undefined
                      end
                  end
              end
          end
      end
  end.

(** Conversions of the C types involved in [copy]: [ino_t] and [size_t] are
    unsigned 64-bit, [int] is signed 32-bit. *)
Definition to_int (x : Z) : Z := (x + 2 ^ 31) mod 2 ^ 32 - 2 ^ 31.
Definition to_ulong (x : Z) : Z := x mod 2 ^ 64.

(** [sendfile] on a regular file: the first [count] bytes, and at most
    0x7ffff000 of them in one call.  [count] is a [size_t]; the call fails
    (-1 with [EINVAL], here [None]) when it is 2^63 or more, a negative
    number for the kernel. *)
Definition sendfile (data : string) (count : Z) : option string :=
  if 2 ^ 63 <=? count then None
  else Some (substring 0 (Z.to_nat (Z.min count 2147479552)) data).

(** [st_size], which the program reads for regular files only. *)
Definition st_size (nd : node) : Z :=
  match nd with
  | File _ data => Z.of_nat (String.length data)
  | _ => 0
  end.

(** [copy]: the size is taken by the first [stat] and kept in an [int], the
    bytes are read once [dest] is open.  When [sendfile] fails, [dest] has
    been created or emptied already. *)
Definition copy (fs : filesystem) (source dest : path) : filesystem * Z :=
  match stat fs source with
  | None => (fs, 0)
  | Some src =>
      let source_ino := to_int (st_ino src) in
      let size := to_int (st_size src) in
      let same :=
        match stat fs dest with
        | Some dst => to_ulong source_ino =? st_ino dst
        | None => false
        end in
      if same then (fs, 1)
      else
        match fopen_w fs dest with
        | None => (fs, 0)
        | Some fs =>
            match lookup_path fs source with
            | Some (File _ data) =>
                match sendfile data (to_ulong size) with
                | Some sent => (fclose_w fs dest sent, 1)
                | None => (fs, 0)
                end
            | _ => (fs, 0)
            end
        end
  end.

(** [struct dirent], as far as it is read. *)
Record dirent := mk_dirent { d_name : string; d_type : d_type_t }.

(** The type [readdir] reports for a node. *)
Definition reported_type (nd : node) : d_type_t :=
  match nd with
  | File _ _ => DT_REG
  | Directory _ => DT_DIR
  | OtherDirectory reported _ => reported
  | Dangling => DT_LNK
  end.

(** What successive calls of [readdir] return for a directory: its own two
    links and one entry per node, in the order the file system lists
    them.  Were "." and ".." reported as [DT_UNKNOWN], the loops would skip
    them all the same, by their names. *)
Definition readdir (d : gmap string node) : list dirent :=
  mk_dirent "." DT_DIR :: mk_dirent ".." DT_DIR ::
  map (fun '(name, nd) => mk_dirent name (reported_type nd)) (map_to_list d).

(** The two tests that open the body of both [readdir] loops. *)
Definition skipped (file : dirent) : bool :=
  match d_type file with
  | DT_DIR => true
  | _ => String.eqb (d_name file) "." || String.eqb (d_name file) ".."
  end.

(** Body of the first loop of [merge_dirs]. *)
Definition merge_dirs_step1 (dir1 dir2 dirO : string) (file : dirent)
    (st : filesystem * Z) : outcome (filesystem * Z) :=
  let '(fs, status) := st in
  if skipped file then Done (fs, status)
  else
    let file1_path := (dir1, d_name file) in
    let file2_path := (dir2, d_name file) in
    let fileO_path := (dirO, d_name file) in
    if access fs file2_path then
      let* r := merge_files fs file1_path file2_path fileO_path in
      Done (r.1, Z.land status r.2)
    else
      let r := copy fs file1_path fileO_path in
      Done (r.1, Z.land status r.2).

(** Body of the second loop of [merge_dirs]. *)
Definition merge_dirs_step2 (dir1 dir2 dirO : string) (file : dirent)
    (st : filesystem * Z) : outcome (filesystem * Z) :=
  let '(fs, status) := st in
  if skipped file then Done (fs, status)
  else
    let file1_path := (dir1, d_name file) in
    let file2_path := (dir2, d_name file) in
    let fileO_path := (dirO, d_name file) in
    if negb (access fs file1_path) then
      let r := copy fs file2_path fileO_path in
      Done (r.1, Z.land status r.2)
    else Done (fs, status).

(** A [while (file = readdir(dir_fh))] loop over the entries listed. *)
Fixpoint readdir_loop (body : dirent -> filesystem * Z -> outcome (filesystem * Z))
    (files : list dirent) (st : filesystem * Z) : outcome (filesystem * Z) :=
  match files with
  | [] => Done st
  | file :: files' => let* st' := body file st in readdir_loop body files' st'
  end.

(** Both passes open [dir1]. *)
Definition merge_dirs (fs : filesystem) (dir1 dir2 dirO : string)
  : outcome (filesystem * Z) :=
  let status := 1 in
  match dirs fs !! dir1 with
  | None => Done (fs, 0)
  | Some d =>
      let* st := readdir_loop (merge_dirs_step1 dir1 dir2 dirO) (readdir d) (fs, status) in
      let '(fs, status) := st in
      match dirs fs !! dir1 with
      | None => Done (fs, 0)
      | Some d =>
          readdir_loop (merge_dirs_step2 dir1 dir2 dirO) (readdir d) (fs, status)
      end
  end.

(** ** Predicates used to state the properties *)

(** The line array of an entry matches its [follow_lines] field: it holds
    [atoi(follow_lines) + 1] lines before the NULL terminator. *)
Definition well_formed (e : hist_entry) : Prop :=
  Z.of_nat (length (lines e)) = atoi (follow_lines e) + 1.

(** Timestamp order: [strcmp] on the two timestamps is not positive. *)
Definition ts_le (a b : hist_entry) : Prop :=
  strcmp (timestamp a) (timestamp b) <> Gt.

(** The comparator of the sort on entries that have their line array. *)
Definition cmp_entries (a b : hist_entry) : comparison :=
  cmp_hist_entry_timestamp a b.

(** What holds of an entry that [read_entry] returns: its kind has two
    bytes, and either its line array matches its count or, the count being
    below -1, it has none. *)
Definition read_back (p : entry_ptr) : Prop :=
  match p with
  | Lined e => strlen (type e) = 2%nat /\ well_formed e
  | Unlined ty _ fl => strlen ty = 2%nat /\ atoi fl < -1
  end.

(** The pointer that a call of [read_entry] returns, unless it is NULL, with
    the stream as the call leaves it. *)
Definition returned (r : read_result) : option (entry_ptr * FILE_in) :=
  match r with
  | Entry entry rest => Some (Lined entry, rest)
  | NoLines ty ts fl rest => Some (Unlined ty ts fl, rest)
  | Null _ => None
  end.

Definition with_lines (e : hist_entry) (ls : list string) : hist_entry :=
  mk_hist_entry (type e) (timestamp e) (follow_lines e) ls.

(** The text of the body of an entry, line by line. *)
Definition body (e : hist_entry) : list string := map c_str (lines e).

(** [interleave A B out]: [out] is made of the elements of [A] and of [B],
    each of the two keeping its own order. *)
Inductive interleave {X : Type} : list X -> list X -> list X -> Prop :=
  | interleave_nil : interleave [] [] []
  | interleave_l x A B out : interleave A B out -> interleave (x :: A) B (x :: out)
  | interleave_r x A B out : interleave A B out -> interleave A (x :: B) (x :: out).

(** The entries whose timestamp is the string [t]. *)
Definition same_ts (t : string) (e : hist_entry) : bool := negb (differ (timestamp e) t).

(** Lexical order on strings, byte by byte, a byte counting as the unsigned
    number it is: a string comes before the strings it is a prefix of, and
    otherwise the first byte that differs decides. *)
Inductive lex_le : string -> string -> Prop :=
  | lex_le_nil (t : string) : lex_le EmptyString t
  | lex_le_lt (c d : ascii) (s t : string) :
      (N_of_ascii c < N_of_ascii d)%N -> lex_le (String c s) (String d t)
  | lex_le_eq (c : ascii) (s t : string) :
      lex_le s t -> lex_le (String c s) (String c t).

(** The timestamp an entry bears: the C string in its buffer. *)
Definition stamp (p : entry_ptr) : string := c_str (ptr_timestamp p).

(** Lexical timestamp order. *)
Definition stamp_le (a b : entry_ptr) : Prop := lex_le (stamp a) (stamp b).

(** The entries that bear the timestamp [t]. *)
Definition bears (t : string) (p : entry_ptr) : bool := String.eqb (stamp p) t.

Section BubbleSortSpec.
Context {A : Type} (compare : A -> A -> comparison).

(** One pass of the sort seen from the element it carries: [x] is
    [array[i]], [l] what follows it, [k] the comparisons left.  It gives the
    new content of these cells and the last value of [new_n]. *)
Fixpoint bubble (k : nat) (x : A) (l : list A) (i new_n : nat) : list A * nat :=
  match k, l with
  | S k', y :: l' =>
      match compare x y with
      | Gt => let '(r, m) := bubble k' x l' (S i) (S i) in (y :: r, m)
      | _ => let '(r, m) := bubble k' y l' (S i) new_n in (x :: r, m)
      end
  | _, _ => (x :: l, new_n)
  end.

(** [swaps l l']: [l'] comes from [l] by exchanging, any number of times,
    two neighbours that [compare] finds in the wrong order. *)
Inductive swaps : list A -> list A -> Prop :=
  | swaps_refl l : swaps l l
  | swaps_step pre x y post l' :
      compare x y = Gt ->
      swaps (pre ++ y :: x :: post) l' ->
      swaps (pre ++ x :: y :: post) l'.

(** The order the sort aims at: [compare] does not ask for an exchange. *)
Definition cmp_le (x y : A) : Prop := compare x y <> Gt.

(** What holds between two passes: the cells from [n] on are sorted and
    hold nothing smaller than a cell before them. *)
Definition sorted_from (n : nat) (array : list A) : Prop :=
  exists P T : list A, array = P ++ T /\ length P = n /\
    StronglySorted cmp_le T /\
    (forall p t, p ∈ P -> t ∈ T -> cmp_le p t).

End BubbleSortSpec.

(** *** The record text format *)

(** A byte of text: neither NUL nor a newline. *)
Definition text_char (c : ascii) : bool :=
  negb (Ascii.eqb c NUL) && negb (Ascii.eqb c LF).

Fixpoint all_chars (P : ascii -> bool) (s : string) : bool :=
  match s with
  | EmptyString => true
  | String c s' => P c && all_chars P s'
  end.

Definition is_text (s : string) : Prop := all_chars text_char s = true.

Definition nl : string := String LF EmptyString.

(** A line: text closed by its newline. *)
Definition is_line (l : string) : Prop := exists t, is_text t /\ l = t +:+ nl.

(** A newline-terminated line, whatever its other bytes: it ends at its
    first newline. *)
Definition newline_terminated (l : string) : Prop :=
  exists t, all_chars (fun c => negb (Ascii.eqb c LF)) t = true /\ l = t +:+ nl.

Definition cat (ls : list string) : string := foldr String.append EmptyString ls.

Definition digit (d : nat) : ascii := ascii_of_nat (48 + d).

(** The count of following lines, three decimal digits padded with zeros. *)
Definition count_field (n : nat) : string :=
  String (digit (n / 100)) (String (digit (n / 10 mod 10))
    (String (digit (n mod 10)) EmptyString)).

Definition header (kind ts count : string) : string :=
  kind +:+ " " +:+ ts +:+ " " +:+ count +:+ " ".

(** The text of one record with the lines [ls], the first one included. *)
Definition record_text (kind ts : string) (ls : list string) : string :=
  header kind ts (count_field (length ls - 1)) +:+ cat ls.

(** The number of lines left in an input, a last line without newline
    counting as one. *)
Fixpoint line_count (s : string) : nat :=
  match s with
  | EmptyString => O
  | String c s' =>
      if Ascii.eqb c LF then S (line_count s')
      else match s' with EmptyString => 1%nat | _ => line_count s' end
  end.

Definition count_field_check (n : nat) : bool :=
  all_chars text_char (count_field n)
  && (atoi (count_field n) =? Z.of_nat n)
  && (String.length (count_field n) =? 3)%nat.

(** Sample entries. *)
Definition entry_x : hist_entry :=
  mk_hist_entry "MR" "20100901T13:39:14Z" "000" ["x" +:+ nl].
Definition entry_y : hist_entry :=
  mk_hist_entry "MR" "20100901T13:39:14Z" "000" ["y" +:+ nl].
Definition entry_late : hist_entry :=
  mk_hist_entry "MS" "20100901T13:39:15Z" "001" ["late" +:+ nl; "line" +:+ nl].

(** Sample inputs. *)
Definition sample_ts : string := "20100901T13:39:14Z".

Definition good_record : string :=
  "MR 20100901T13:39:14Z 000 hello" +:+ nl.
Definition good_entry : hist_entry :=
  mk_hist_entry "MR" "20100901T13:39:14Z" "000" ["hello" +:+ nl].

(** A record whose count of following lines is -5. *)
Definition unlined_record : string := "MR 20100901T13:39:13Z -05 ".
Definition unlined_entry : entry_ptr := Unlined "MR" "20100901T13:39:13Z" "-05".

(** A record that announces two following lines and ends after its first
    line. *)
Definition truncated_record : string :=
  "MR 20100901T13:39:15Z 002 only one line" +:+ nl.

Definition log_a : string := "MR 20100901T13:39:10Z 000 from a" +:+ nl.
Definition log_b : string := "MS 20100901T13:39:11Z 000 from b" +:+ nl.
Definition log_shared_a : string :=
  "MR 20100901T13:39:12Z 000 both" +:+ nl +:+ "MR 20100901T13:39:13Z 000 only a" +:+ nl.
Definition log_shared_b : string :=
  "MR 20100901T13:39:12Z 000 both" +:+ nl +:+ "MS 20100901T13:39:14Z 000 only b" +:+ nl.
Definition log_shared_merged : string :=
  "MR 20100901T13:39:12Z 000 both" +:+ nl +:+ "MR 20100901T13:39:13Z 000 only a" +:+ nl
  +:+ "MS 20100901T13:39:14Z 000 only b" +:+ nl.

(** A directory with the log whose second record is truncated, and a sound
    log to merge it with. *)
Definition truncated_fs : filesystem :=
  mk_filesystem
    (<["logs" := <["one.log" := File 1 (good_record +:+ truncated_record)]>
                 (<["two.log" := File 2 log_b]> ∅)]> ∅)
    3.

(** The directory scenario: [dirA] holds "a.log" and "shared.log", [dirB]
    holds "shared.log" and "b.log", and [outDir] is empty. *)
Definition scenario : filesystem :=
  mk_filesystem
    (<["dirA" := <["a.log" := File 11 log_a]> (<["shared.log" := File 12 log_shared_a]> ∅)]>
     (<["dirB" := <["shared.log" := File 21 log_shared_b]> (<["b.log" := File 22 log_b]> ∅)]>
      (<["outDir" := ∅]> ∅)))
    100.

(** *** Further notions for the properties *)

(** The bytes that [write_entry] puts out for an entry. *)
Definition entry_text (e : hist_entry) : string :=
  c_str (type e) +:+ " " +:+ c_str (timestamp e) +:+ " " +:+ c_str (follow_lines e)
  +:+ " " +:+ cat (body e).

(** An entry as a record of the fixed format yields it: a kind of two text
    bytes, a timestamp of eighteen, the count of its following lines in
    three digits, and between one and a thousand lines. *)
Definition conforming (e : hist_entry) : Prop :=
  String.length (type e) = 2%nat /\ is_text (type e) /\
  String.length (timestamp e) = 18%nat /\ is_text (timestamp e) /\
  (1 <= length (lines e) <= 1000)%nat /\
  follow_lines e = count_field (length (lines e) - 1) /\
  Forall is_line (lines e).

(** The text of a log file that holds the records of [es], in this order. *)
Definition log_text (es : list hist_entry) : string := cat (map entry_text es).

(** A directory with a sound log and an empty file. *)
Definition empty_log_fs : filesystem :=
  mk_filesystem
    (<["logs" := <["full.log" := File 1 good_record]> (<["empty.log" := File 2 ""]> ∅)]> ∅)
    3.

(** A file whose inode number does not fit an [int]. *)
Definition large_inode_fs : filesystem :=
  mk_filesystem (<["logs" := <["big.log" := File 4294967424 good_record]> ∅]> ∅) 4294967425.

(** [fs_frame fs fs' p]: from [fs] to [fs'] no path but [p] has changed what
    it names, and the same directories exist. *)
Definition fs_frame (fs fs' : filesystem) (p : path) : Prop :=
  (forall q, q <> p -> lookup_path fs' q = lookup_path fs q) /\
  (forall k, is_Some (dirs fs' !! k) <-> is_Some (dirs fs !! k)).

(** *** The block behind the array of entries *)

(** [insert_hist_entry] with the size of the allocated block made explicit:
    [capacity] is the number of pointers the block [*entries] has room for
    (0 for the NULL pointer [read_hist] starts from) and [*size] is the
    length of [entries].  [realloc] is taken to succeed, and to give a block
    without room for a pointer when asked for zero bytes.  The result is the
    new capacity with the new content; a store behind the end of the block,
    or the remainder of a division by a zero [pre_alloc_size] (the program
    passes 1000), is [Undefined]. *)
Definition insert_hist_entry_block (capacity : nat) (entries : list entry_ptr)
    (entry : entry_ptr) (pre_alloc_size : nat) : outcome (nat * list entry_ptr) :=
  let size := length entries in
  let store (capacity : nat) :=
    if (size <? capacity)%nat then Done (capacity, entries ++ [entry]) else Undefined in
  if (size =? 0)%nat then store pre_alloc_size
  else if (pre_alloc_size =? 0)%nat then Undefined
  else if negb (size mod pre_alloc_size =? 0)%nat then store capacity
  else store (size + pre_alloc_size)%nat.

(** *** The command line *)

(** A path given on the command line names the entry after its last "/" in
    the directory before it, or in "." when it holds no "/". *)
Fixpoint split_last (s : string) : option (string * string) :=
  match s with
  | EmptyString => None
  | String c s' =>
      match split_last s' with
      | Some (dir, name) => Some (String c dir, name)
      | None => if Ascii.eqb c "/" then Some (EmptyString, s') else None
      end
  end.

Definition split_path (s : string) : path :=
  match split_last s with
  | Some (dir, name) => (dir, name)
  | None => (".", s)
  end.

(** [stat] on an argument, followed by [S_ISDIR]: [None] when [stat] fails.
    A directory is one the file system has a listing for, or a
    sub-directory entry. *)
Definition stat_is_dir (fs : filesystem) (arg : string) : option bool :=
  match dirs fs !! arg with
  | Some _ => Some true
  | None =>
      match stat fs (split_path arg) with
      | Some (File _ _) => Some false
      | Some _ => Some true
      | None => None
      end
  end.

(** How a run of [main] ends: in [help], which prints the usage text and
    exits with 1; after [perror] on an argument, returning 1; in [errx],
    exiting with 1; or by returning the negated result of the merge. *)
Inductive main_end :=
  | Usage
  | Perror (arg : string)
  | Errx (msg : string)
  | Return (fs : filesystem) (code : Z).

(** The loop over [argv[1]], [argv[2]], ... at the start of [main]; [true]
    when it calls [help]. *)
Fixpoint options_loop (args : list string) : bool :=
  match args with
  | [] => false
  | arg :: args' =>
      if differ arg "--" then false
      else if differ arg "--help" || differ arg "-h" then true
      else options_loop args'
  end.

(** The C negation [!x]. *)
Definition lnot (x : Z) : Z := if x =? 0 then 1 else 0.

Definition main (fs : filesystem) (argv : list string) : outcome main_end :=
  let argc := length argv in
  if ((argc <? 3) || (4 <? argc))%nat then Done Usage
  else if options_loop (tail argv) then Done Usage
  else
    match argv with
    | _ :: arg1 :: arg2 :: rest =>
        match stat_is_dir fs arg1 with
        | None => Done (Perror arg1)
        | Some source1_is_dir =>
            match stat_is_dir fs arg2 with
            | None => Done (Perror arg2)
            | Some source2_is_dir =>
                if negb (Bool.eqb source1_is_dir source2_is_dir)
                then Done (Errx "Both must be dir or file")
                else
                  match rest with
                  | arg3 :: _ =>
                      if source1_is_dir then
                        match stat_is_dir fs arg3 with
                        | None => Done (Perror arg3)
                        | Some false => Done (Errx "Dest has to be directory")
                        | Some true =>
                            let* r := merge_dirs fs arg1 arg2 arg3 in
                            Done (Return r.1 (lnot r.2))
                        end
                      else
                        let* r := merge_files fs (split_path arg1) (split_path arg2)
                                    (split_path arg3) in
                        Done (Return r.1 (lnot r.2))
                  | [] =>
                      if source1_is_dir then
                        let* r := merge_dirs fs arg1 arg2 arg1 in
                        Done (Return r.1 (lnot r.2))
                      else
                        let* r := merge_files fs (split_path arg1) (split_path arg2)
                                    (split_path arg1) in
                        Done (Return r.1 (lnot r.2))
                  end
            end
        end
    | _ => Done Usage (* not reached: [argc] is 3 or 4 here *)
    end.

(** * Properties *)

(** ** [strcmp] is a total preorder on buffers *)

Lemma compare_refl (s : string) : String.compare s s = Eq.
Proof.
  induction s as [|c s IH]; simpl; [reflexivity|].
  unfold Ascii.compare. now rewrite N.compare_refl.
Qed.

Lemma strcmp_refl (a : string) : strcmp a a = Eq.
Proof. apply compare_refl. Qed.

Lemma strcmp_eq (a b : string) : strcmp a b = Eq <-> c_str a = c_str b.
Proof.
  unfold strcmp. split.
  - apply String.compare_eq_iff.
  - intros ->. apply compare_refl.
Qed.

Lemma strcmp_antisym (a b : string) : strcmp a b = CompOpp (strcmp b a).
Proof. apply String.compare_antisym. Qed.

Lemma strcmp_le (a b : string) : strcmp a b <> Gt <-> String.le (c_str a) (c_str b).
Proof.
  unfold strcmp, String.le, String.leb.
  destruct (String.compare (c_str a) (c_str b)); simpl; intuition congruence.
Qed.

Lemma strcmp_le_trans (a b c : string) :
  strcmp a b <> Gt -> strcmp b c <> Gt -> strcmp a c <> Gt.
Proof. rewrite !strcmp_le. apply transitivity. Qed.

Lemma strcmp_gt_le (a b : string) : strcmp a b = Gt -> strcmp b a <> Gt.
Proof. rewrite (strcmp_antisym b a). intros ->. discriminate. Qed.

Lemma differ_false (a b : string) : differ a b = false <-> c_str a = c_str b.
Proof.
  unfold differ. rewrite <- strcmp_eq.
  destruct (strcmp a b); intuition congruence.
Qed.

Lemma differ_refl (a : string) : differ a a = false.
Proof. now apply differ_false. Qed.

#[local] Instance ts_le_trans : Transitive ts_le.
Proof. intros a b c. apply strcmp_le_trans. Qed.

Lemma ts_le_refl (a : hist_entry) : ts_le a a.
Proof. unfold ts_le. now rewrite strcmp_refl. Qed.

(** ** The exact-duplicate test *)

Lemma atoi_c_str (a b : string) : c_str a = c_str b -> atoi a = atoi b.
Proof. unfold atoi. now intros ->. Qed.

Lemma eq_lines_refl (ls : list string) : eq_lines ls ls = Done true.
Proof. induction ls as [|l ls IH]; simpl; [reflexivity|]. now rewrite differ_refl. Qed.

Lemma eq_lines_same_length (la lb : list string) :
  length la = length lb -> exists r, eq_lines la lb = Done r.
Proof.
  revert lb. induction la as [|a la IH]; intros [|b lb] Hlen; simpl in *; try discriminate.
  - eauto.
  - destruct (differ a b); eauto.
Qed.

Lemma eq_lines_true (la lb : list string) :
  eq_lines la lb = Done true -> map c_str la = map c_str lb.
Proof.
  revert lb. induction la as [|a la IH]; intros [|b lb]; simpl; try discriminate.
  - reflexivity.
  - destruct (differ a b) eqn:Hd; [discriminate|].
    intros H. apply differ_false in Hd. rewrite Hd. f_equal. now apply IH.
Qed.

Lemma eq_hist_entry_refl (a : hist_entry) : eq_hist_entry a a = Done true.
Proof. unfold eq_hist_entry. rewrite !differ_refl. simpl. apply eq_lines_refl. Qed.

Lemma well_formed_same_length (a b : hist_entry) :
  well_formed a -> well_formed b ->
  differ (follow_lines a) (follow_lines b) = false ->
  length (lines a) = length (lines b).
Proof.
  unfold well_formed. intros Ha Hb Hd.
  apply differ_false, atoi_c_str in Hd. lia.
Qed.

Lemma eq_hist_entry_done (a b : hist_entry) :
  well_formed a -> well_formed b -> exists r, eq_hist_entry a b = Done r.
Proof.
  intros Ha Hb. unfold eq_hist_entry.
  destruct (differ (type a) (type b)); simpl; [eauto|].
  destruct (differ (timestamp a) (timestamp b)); simpl; [eauto|].
  destruct (differ (follow_lines a) (follow_lines b)) eqn:Hd; simpl; [eauto|].
  apply eq_lines_same_length. now apply well_formed_same_length.
Qed.

Lemma eq_hist_entry_true_body (a b : hist_entry) :
  eq_hist_entry a b = Done true -> body a = body b.
Proof.
  unfold eq_hist_entry, body.
  destruct (_ || _); [discriminate|]. apply eq_lines_true.
Qed.

(** C10: on two well-formed entries [eq_hist_entry] returns a result, so no
    NULL line pointer reaches [strcmp]; when the [follow_lines] fields differ
    the result is "unequal" whatever the line arrays hold, so they are not
    looked at; and when the fields are equal both arrays have the same
    number of lines, so both iterators reach the terminator together. *)
Theorem eq_hist_entry_safe (a b : hist_entry) :
  well_formed a -> well_formed b ->
  (exists r, eq_hist_entry a b = Done r) /\
  (differ (follow_lines a) (follow_lines b) = true ->
   forall la lb, eq_hist_entry (with_lines a la) (with_lines b lb) = Done false) /\
  (differ (follow_lines a) (follow_lines b) = false ->
   length (lines a) = length (lines b)).
Proof.
  intros Ha Hb. split; [|split].
  - now apply eq_hist_entry_done.
  - intros Hd la lb. unfold eq_hist_entry. simpl. rewrite Hd.
    now rewrite !orb_true_r.
  - now apply well_formed_same_length.
Qed.

Lemma eq_hist_entry_safe_witness :
  (exists r, eq_hist_entry entry_x entry_late = Done r) /\
  (differ (follow_lines entry_x) (follow_lines entry_late) = true ->
   forall la lb,
     eq_hist_entry (with_lines entry_x la) (with_lines entry_late lb) = Done false) /\
  (differ (follow_lines entry_x) (follow_lines entry_late) = false ->
   length (lines entry_x) = length (lines entry_late)).
Proof. apply eq_hist_entry_safe; reflexivity. Defined.

(** ** The merge loop *)

Lemma merge_entries_nil_r (A : list hist_entry) : merge_entries A [] = Done A.
Proof. now destruct A. Qed.

Lemma merge_entries_cons (a b : hist_entry) (A B : list hist_entry) :
  merge_entries (a :: A) (b :: B) =
  match strcmp (timestamp a) (timestamp b) with
  | Gt => let* out := merge_entries (a :: A) B in Done (b :: out)
  | Eq =>
      let* same := eq_hist_entry a b in
      let* out := merge_entries A (if same then B else b :: B) in
      Done (a :: out)
  | Lt => let* out := merge_entries A (b :: B) in Done (a :: out)
  end.
Proof. reflexivity. Qed.

(** C5: merging a sequence with itself writes exactly that sequence, each
    entry of the second copy being skipped as the duplicate of the entry
    written; this holds for every sequence, sorted or not. *)
Theorem merge_entries_self (A : list hist_entry) : merge_entries A A = Done A.
Proof.
  induction A as [|a A IH]; [reflexivity|].
  rewrite merge_entries_cons, strcmp_refl, eq_hist_entry_refl. simpl.
  now rewrite IH.
Qed.

(** C6: two well-formed entries with equal timestamps and different bodies,
    one in each input, are both written, the one of the first input
    first. *)
Theorem merge_entries_tie (a b : hist_entry) :
  well_formed a -> well_formed b ->
  strcmp (timestamp a) (timestamp b) = Eq ->
  body a <> body b ->
  merge_entries [a] [b] = Done [a; b].
Proof.
  intros Ha Hb Hts Hbody.
  rewrite merge_entries_cons, Hts.
  destruct (eq_hist_entry_done a b Ha Hb) as [[|] Hr]; rewrite Hr; simpl.
  - now apply eq_hist_entry_true_body in Hr.
  - reflexivity.
Qed.

Lemma merge_entries_tie_witness : merge_entries [entry_x] [entry_y] = Done [entry_x; entry_y].
Proof.
  apply merge_entries_tie.
  - reflexivity.
  - reflexivity.
  - reflexivity.
  - vm_compute. discriminate.
Defined.

(** *** Inputs without a common entry *)

Lemma interleave_nil_l {X} (B : list X) : interleave [] B B.
Proof. induction B; constructor; assumption. Qed.

Lemma interleave_nil_r {X} (A : list X) : interleave A [] A.
Proof. induction A; constructor; assumption. Qed.

Lemma interleave_length {X} (A B out : list X) :
  interleave A B out -> length out = (length A + length B)%nat.
Proof. induction 1; simpl; lia. Qed.

Lemma interleave_elem_of {X} (A B out : list X) (x : X) :
  interleave A B out -> x ∈ out -> x ∈ A \/ x ∈ B.
Proof.
  induction 1 as [|y A B out _ IH|y A B out _ IH]; intros Hx.
  - now left.
  - apply elem_of_cons in Hx as [->|Hx]; [left; left|].
    destruct (IH Hx); [left; now right|now right].
  - apply elem_of_cons in Hx as [->|Hx]; [right; left|].
    destruct (IH Hx); [now left|right; now right].
Qed.

Lemma interleave_sublist_l {X} (A B out : list X) :
  interleave A B out -> A `sublist_of` out.
Proof. induction 1; now constructor. Qed.

Lemma interleave_sublist_r {X} (A B out : list X) :
  interleave A B out -> B `sublist_of` out.
Proof. induction 1; now constructor. Qed.

Lemma merge_entries_interleave (A B : list hist_entry) :
  StronglySorted ts_le A -> StronglySorted ts_le B ->
  Forall well_formed A -> Forall well_formed B ->
  (forall a b, a ∈ A -> b ∈ B -> eq_hist_entry a b <> Done true) ->
  exists out, merge_entries A B = Done out /\ interleave A B out /\
              StronglySorted ts_le out.
Proof.
  revert B. induction A as [|a A IHA]; intros B HsA HsB HwA HwB Hnd.
  { exists B. split; [reflexivity|]. split; [apply interleave_nil_l|assumption]. }
  induction B as [|b B IHB].
  { exists (a :: A). split; [reflexivity|]. split; [apply interleave_nil_r|assumption]. }
  apply StronglySorted_inv in HsA as [HsA HaA].
  apply StronglySorted_inv in HsB as [HsB HbB].
  apply Forall_cons in HwA as [Hwa HwA]. apply Forall_cons in HwB as [Hwb HwB].
  rewrite Forall_forall in HaA, HbB.
  assert (Hab : eq_hist_entry a b = Done false).
  { destruct (eq_hist_entry_done a b Hwa Hwb) as [[|] Hr]; [|assumption].
    exfalso. apply (Hnd a b); [left|left|assumption]. }
  assert (Hleft : strcmp (timestamp a) (timestamp b) <> Gt ->
    exists out, merge_entries A (b :: B) = Done out /\
                interleave (a :: A) (b :: B) (a :: out) /\
                StronglySorted ts_le (a :: out)).
  { intros Hle.
    destruct (IHA (b :: B)) as (out & Hm & Hi & Hs); try assumption.
    - now constructor; [|apply Forall_forall].
    - now constructor.
    - intros a' b' Ha' Hb'. apply Hnd; [now right|assumption].
    - exists out. split; [assumption|]. split; [now constructor|].
      constructor; [assumption|]. apply Forall_forall. intros z Hz.
      destruct (interleave_elem_of _ _ _ z Hi Hz) as [Hz'|Hz'].
      + now apply HaA.
      + apply elem_of_cons in Hz' as [->|Hz']; [assumption|].
        transitivity b; [assumption|now apply HbB]. }
  rewrite merge_entries_cons.
  destruct (strcmp (timestamp a) (timestamp b)) eqn:Hts.
  - rewrite Hab. simpl.
    destruct Hleft as (out & -> & Hi & Hs); [discriminate|]. simpl. eauto.
  - destruct Hleft as (out & -> & Hi & Hs); [discriminate|]. simpl. eauto.
  - destruct IHB as (out & -> & Hi & Hs); try assumption.
    { intros a' b' Ha' Hb'. apply Hnd; [assumption|now right]. }
    simpl. exists (b :: out). split; [reflexivity|]. split; [now constructor|].
    constructor; [assumption|]. apply Forall_forall. intros z Hz.
    assert (Hba : ts_le b a) by now apply strcmp_gt_le.
    destruct (interleave_elem_of _ _ _ z Hi Hz) as [Hz'|Hz'].
    + apply elem_of_cons in Hz' as [->|Hz']; [assumption|].
      transitivity a; [assumption|now apply HaA].
    + now apply HbB.
Qed.

(** C4: two sorted inputs of well-formed entries without an exact duplicate
    across them are merged into [|A| + |B|] written entries, sorted by
    timestamp, in which the entries of each input keep their order. *)
Theorem merge_entries_disjoint (A B : list hist_entry) :
  Sorted ts_le A -> Sorted ts_le B ->
  Forall well_formed A -> Forall well_formed B ->
  (forall a b, a ∈ A -> b ∈ B -> eq_hist_entry a b <> Done true) ->
  exists out, merge_entries A B = Done out /\
              length out = (length A + length B)%nat /\
              Sorted ts_le out /\
              interleave A B out /\
              A `sublist_of` out /\ B `sublist_of` out.
Proof.
  intros HsA HsB HwA HwB Hnd.
  apply Sorted_StronglySorted in HsA; [|apply ts_le_trans].
  apply Sorted_StronglySorted in HsB; [|apply ts_le_trans].
  destruct (merge_entries_interleave A B HsA HsB HwA HwB Hnd) as (out & Hm & Hi & Hs).
  exists out. split; [assumption|].
  split; [now apply interleave_length|].
  split; [now apply StronglySorted_Sorted|].
  split; [assumption|].
  split; [now apply interleave_sublist_l with B|now apply interleave_sublist_r with A].
Qed.

Lemma merge_entries_disjoint_witness :
  let A := [entry_x] in
  let B := [entry_y; entry_late] in
  exists out, merge_entries A B = Done out /\
              length out = (length A + length B)%nat /\
              Sorted ts_le out /\
              interleave A B out /\
              A `sublist_of` out /\ B `sublist_of` out.
Proof.
  apply merge_entries_disjoint.
  - repeat constructor.
  - repeat constructor. vm_compute. discriminate.
  - repeat constructor.
  - repeat constructor.
  - intros a b Ha Hb.
    apply list_elem_of_singleton in Ha as ->.
    apply elem_of_cons in Hb as [->|Hb];
      [|apply list_elem_of_singleton in Hb as ->]; vm_compute; discriminate.
Defined.

(** *** Inputs that share entries *)

Lemma sorted_head_le (a b : hist_entry) (A : list hist_entry) :
  StronglySorted ts_le (a :: A) -> b ∈ a :: A -> ts_le a b.
Proof.
  intros Hs Hb. apply StronglySorted_inv in Hs as [_ Ha].
  apply elem_of_cons in Hb as [->|Hb]; [apply ts_le_refl|].
  rewrite Forall_forall in Ha. now apply Ha.
Qed.

Lemma merge_entries_sublist_strong (A B : list hist_entry) :
  Forall well_formed A -> StronglySorted ts_le A -> B `sublist_of` A ->
  merge_entries A B = Done A.
Proof.
  revert B. induction A as [|a A IH]; intros B Hw Hs Hsub.
  { apply sublist_nil_r in Hsub as ->. reflexivity. }
  destruct B as [|b B]; [reflexivity|].
  assert (Hb : b ∈ a :: A).
  { eapply elem_of_sublist; [left|exact Hsub]. }
  assert (Hle : ts_le a b) by now apply sorted_head_le with A.
  assert (Hwb : well_formed b) by now rewrite Forall_forall in Hw; apply Hw.
  apply Forall_cons in Hw as [Hwa Hw].
  pose proof Hs as Hs'. apply StronglySorted_inv in Hs' as [HsA _].
  assert (Hkeep : eq_hist_entry a b <> Done true -> merge_entries A (b :: B) = Done A).
  { intros Hne. apply IH; [assumption..|].
    apply sublist_cons_r in Hsub as [Hsub|(B' & [= <- <-] & Hsub)]; [assumption|].
    now rewrite eq_hist_entry_refl in Hne. }
  rewrite merge_entries_cons.
  destruct (strcmp (timestamp a) (timestamp b)) eqn:Hts.
  - destruct (eq_hist_entry_done a b Hwa Hwb) as [[|] Hr]; rewrite Hr; simpl.
    + rewrite IH; [reflexivity|assumption..|].
      apply sublist_cons_r in Hsub as [Hsub|(B' & [= <- <-] & Hsub)]; [|assumption].
      apply sublist_cons_l in Hsub as (k1 & k2 & -> & Hsub).
      now apply sublist_inserts_l, sublist_cons.
    + rewrite Hkeep; [reflexivity|]. rewrite Hr. discriminate.
  - rewrite Hkeep; [reflexivity|].
    intros He. unfold eq_hist_entry in He.
    assert (Hd : differ (timestamp a) (timestamp b) = true).
    { unfold differ. now rewrite Hts. }
    rewrite Hd, orb_true_r in He. discriminate.
  - now destruct Hle.
Qed.

(** C3, as the spec words it, at a concrete input: every entry of [A] is in
    [B], both are sorted, and the merge writes two entries, not the single
    one of [A]. *)
Lemma merge_entries_superset_counterexample :
  let A := [entry_x] in
  let B := [entry_x; entry_late] in
  Sorted ts_le A /\ Sorted ts_le B /\
  Forall well_formed A /\ Forall well_formed B /\
  (forall a, a ∈ A -> a ∈ B) /\
  merge_entries A B = Done [entry_x; entry_late] /\
  ~ (exists out, merge_entries A B = Done out /\ length out = length A /\ out = A).
Proof.
  simpl. repeat split.
  - repeat constructor.
  - repeat constructor. vm_compute. discriminate.
  - repeat constructor.
  - repeat constructor.
  - intros a Ha. apply list_elem_of_singleton in Ha as ->. left.
  - intros (out & Hm & Hlen & _). vm_compute in Hm.
    injection Hm as <-. discriminate.
Qed.

(** C3, amended: when [B] is a subsequence of the sorted sequence [A] of
    well-formed entries (each entry of [B] is an entry of [A], in the same
    order), the merge writes exactly [A], so [|A|] entries, and every entry
    of [B] is skipped as a duplicate. *)
Theorem merge_entries_sublist (A B : list hist_entry) :
  Forall well_formed A -> Sorted ts_le A -> B `sublist_of` A ->
  merge_entries A B = Done A.
Proof.
  intros Hw Hs Hsub. apply merge_entries_sublist_strong; [assumption| |assumption].
  apply Sorted_StronglySorted; [apply ts_le_trans|assumption].
Qed.

Lemma merge_entries_sublist_witness :
  let A := [entry_x; entry_y; entry_late] in
  let B := [entry_y; entry_late] in
  merge_entries A B = Done A.
Proof.
  apply merge_entries_sublist.
  - repeat constructor.
  - repeat constructor; vm_compute; discriminate.
  - apply sublist_cons. apply sublist_skip. apply sublist_skip. apply sublist_nil.
Defined.

(** ** The bubble sort *)

Section BubbleSortProofs.
Context {A : Type} (compare : A -> A -> comparison).
Hypothesis compare_gt : forall x y, compare x y = Gt -> compare y x <> Gt.
Hypothesis compare_trans :
  forall x y z, compare x y <> Gt -> compare y z <> Gt -> compare x z <> Gt.

Local Abbreviation le := (cmp_le compare).

#[local] Instance le_trans : Transitive le.
Proof. intros x y z. apply compare_trans. Qed.

Lemma le_refl (x : A) : le x x.
Proof. intros H. exact (compare_gt x x H H). Qed.

(** *** Exchanges of neighbours *)

Lemma swaps_trans (l1 l2 l3 : list A) :
  swaps compare l1 l2 -> swaps compare l2 l3 -> swaps compare l1 l3.
Proof.
  induction 1 as [|pre x y post l' Hxy _ IH]; [trivial|].
  intros H3. apply swaps_step; [assumption|]. now apply IH.
Qed.

Lemma swaps_app_l (pre l l' : list A) :
  swaps compare l l' -> swaps compare (pre ++ l) (pre ++ l').
Proof.
  induction 1 as [|pre' x y post l' Hxy _ IH]; [constructor|].
  rewrite app_assoc. apply swaps_step; [assumption|].
  now rewrite <- app_assoc.
Qed.

Lemma swaps_app_r (post l l' : list A) :
  swaps compare l l' -> swaps compare (l ++ post) (l' ++ post).
Proof.
  induction 1 as [|pre x y post' l' Hxy _ IH]; [constructor|].
  rewrite <- app_assoc. simpl. apply swaps_step; [assumption|].
  now rewrite <- app_assoc in IH.
Qed.

Lemma swaps_cons (x : A) (l l' : list A) :
  swaps compare l l' -> swaps compare (x :: l) (x :: l').
Proof. apply (swaps_app_l [x]). Qed.

Lemma swaps_Permutation (l l' : list A) : swaps compare l l' -> Permutation l l'.
Proof.
  induction 1 as [|pre x y post l' _ _ IH]; [reflexivity|].
  rewrite <- IH. apply Permutation_app_head. constructor.
Qed.

Lemma swaps_filter (P : A -> bool) (l l' : list A) :
  (forall x y, compare x y = Gt -> P x && P y = false) ->
  swaps compare l l' -> List.filter P l = List.filter P l'.
Proof.
  intros HP. induction 1 as [|pre x y post l' Hxy _ IH]; [reflexivity|].
  rewrite <- IH, !List.filter_app. f_equal. simpl.
  specialize (HP x y Hxy). destruct (P x), (P y); simpl in *; congruence.
Qed.

(** *** One pass *)

Lemma bubble_pass_bubble (k : nat) :
  forall (pre : list A) (x : A) (l : list A) (new_n : nat),
    bubble_pass compare k (length pre) (pre ++ x :: l) new_n =
    let '(r, m) := bubble compare k x l (length pre) new_n in (pre ++ r, m).
Proof.
  induction k as [|k IH]; intros pre x l new_n; [reflexivity|].
  cbn [bubble_pass bubble].
  rewrite list_lookup_middle by reflexivity.
  rewrite (lookup_app_r pre) by lia.
  replace (S (length pre) - length pre)%nat with 1%nat by lia.
  destruct l as [|y l]; [reflexivity|]. cbn [lookup list_lookup].
  assert (Hlen : forall z : A, S (length pre) = length (pre ++ [z])).
  { intros z. rewrite length_app. simpl. lia. }
  assert (Hmid : forall (z : A) (t : list A), pre ++ z :: t = (pre ++ [z]) ++ t).
  { intros z t. now rewrite <- app_assoc. }
  destruct (compare x y) eqn:Hxy.
  - rewrite (Hlen x), (Hmid x (y :: l)), IH.
    destruct (bubble compare k y l _ new_n) as [r m].
    now rewrite <- app_assoc.
  - rewrite (Hlen x), (Hmid x (y :: l)), IH.
    destruct (bubble compare k y l _ new_n) as [r m].
    now rewrite <- app_assoc.
  - rewrite (insert_app_r_alt pre) by lia.
    rewrite (insert_app_r_alt pre) by lia.
    replace (length pre - length pre)%nat with 0%nat by lia.
    replace (S (length pre) - length pre)%nat with 1%nat by lia.
    cbn [insert list_insert].
    rewrite (Hlen y), (Hmid y (x :: l)), IH.
    destruct (bubble compare k x l _ _) as [r m].
    now rewrite <- app_assoc.
Qed.

Lemma bubble_app (k : nat) :
  forall (x : A) (P T : list A) (i new_n : nat),
    length P = k ->
    bubble compare k x (P ++ T) i new_n =
    let '(r, m) := bubble compare k x P i new_n in (r ++ T, m).
Proof.
  induction k as [|k IH]; intros x P T i new_n Hlen.
  - destruct P; [reflexivity|discriminate].
  - destruct P as [|y P]; [discriminate|]. injection Hlen as Hlen.
    cbn [bubble app].
    destruct (compare x y); rewrite IH by assumption;
      now destruct (bubble compare k _ P _ _).
Qed.

Lemma bubble_swaps (k : nat) :
  forall (x : A) (l : list A) (i new_n : nat),
    swaps compare (x :: l) (bubble compare k x l i new_n).1.
Proof.
  induction k as [|k IH]; intros x l i new_n; [constructor|].
  destruct l as [|y l]; [constructor|]. cbn [bubble].
  destruct (compare x y) eqn:Hxy.
  - specialize (IH y l (S i) new_n). destruct (bubble compare k y l _ _) as [r m].
    now apply swaps_cons.
  - specialize (IH y l (S i) new_n). destruct (bubble compare k y l _ _) as [r m].
    now apply swaps_cons.
  - specialize (IH x l (S i) (S i)). destruct (bubble compare k x l _ _) as [r m].
    apply (swaps_step compare [] x y l); [assumption|]. now apply swaps_cons.
Qed.

(** A pass that runs to the end of its cells either exchanges nothing, and
    then they were sorted, or leaves behind the last exchange a sorted run
    that starts with the largest element met. *)
Lemma bubble_full (l : list A) :
  forall (k : nat) (x : A) (i new_n : nat) (r : list A) (m : nat),
    (length l <= k)%nat ->
    bubble compare k x l i new_n = (r, m) ->
    (m = new_n /\ r = x :: l /\ Sorted le (x :: l)) \/
    ((i < m <= i + length l)%nat /\
     exists Q z R, r = Q ++ z :: R /\ length Q = (m - i)%nat /\
                   Sorted le (z :: R) /\ Forall (fun q => le q z) Q /\ le x z).
Proof.
  induction l as [|y l IH]; intros k x i new_n r m Hk Hb.
  { destruct k; injection Hb as <- <-; left; repeat constructor. }
  destruct k as [|k]; [simpl in Hk; lia|]. cbn [bubble] in Hb.
  simpl in Hk. assert (Hk' : (length l <= k)%nat) by lia.
  assert (Hkeep : le x y ->
    forall r' m', bubble compare k y l (S i) new_n = (r', m') ->
    (m' = new_n /\ x :: r' = x :: y :: l /\ Sorted le (x :: y :: l)) \/
    ((i < m' <= i + length (y :: l))%nat /\
     exists Q z R, x :: r' = Q ++ z :: R /\ length Q = (m' - i)%nat /\
                   Sorted le (z :: R) /\ Forall (fun q => le q z) Q /\ le x z)).
  { intros Hxy r' m' Hb'.
    destruct (IH k y (S i) new_n r' m' Hk' Hb')
      as [(-> & -> & Hs)|(Hm & Q & z & R & -> & HQ & Hs & HF & Hyz)].
    - left. split; [reflexivity|]. split; [reflexivity|].
      constructor; [exact Hs|]. constructor. exact Hxy.
    - right. simpl. split; [lia|]. exists (x :: Q), z, R.
      assert (Hxz : le x z) by now transitivity y.
      repeat split; simpl; try assumption; [lia|now constructor]. }
  destruct (compare x y) eqn:Hxy.
  - destruct (bubble compare k y l (S i) new_n) as [r' m'] eqn:Hb'.
    injection Hb as <- <-. apply Hkeep; [|reflexivity]. unfold cmp_le. congruence.
  - destruct (bubble compare k y l (S i) new_n) as [r' m'] eqn:Hb'.
    injection Hb as <- <-. apply Hkeep; [|reflexivity]. unfold cmp_le. congruence.
  - destruct (bubble compare k x l (S i) (S i)) as [r' m'] eqn:Hb'.
    injection Hb as <- <-. right. simpl.
    assert (Hyx : le y x) by now apply compare_gt.
    destruct (IH k x (S i) (S i) r' m' Hk' Hb')
      as [(-> & -> & Hs)|(Hm & Q & z & R & -> & HQ & Hs & HF & Hxz)].
    + split; [lia|]. exists [y], x, l. repeat split; simpl; try assumption.
      * lia.
      * now repeat constructor.
      * apply le_refl.
    + split; [lia|]. exists (y :: Q), z, R.
      assert (Hyz : le y z) by now transitivity x.
      repeat split; simpl; try assumption; [lia|now constructor].
Qed.

(** *** The outer loop *)

Lemma sorted_from_le_1 (n : nat) (array : list A) :
  (n <= 1)%nat -> sorted_from compare n array -> StronglySorted le array.
Proof.
  intros Hn (P & T & -> & Hlen & HsT & Hle).
  apply StronglySorted_app_2; [exact Hle| |exact HsT].
  destruct P as [|p [|q P]]; simpl in Hlen; try lia; repeat constructor.
Qed.

Lemma bubble_pass_step (n : nat) (array array' : list A) (m : nat) :
  sorted_from compare n array ->
  bubble_pass compare (n - 1) 0 array 1 = (array', m) ->
  swaps compare array array' /\
  ((m <= 1)%nat -> StronglySorted le array') /\
  ((1 < m)%nat -> (m < n)%nat /\ sorted_from compare m array').
Proof.
  intros (P & T & -> & Hlen & HsT & Hle) Hpass.
  destruct P as [|x P].
  { simpl in Hlen. subst n. simpl in Hpass. simplify_eq.
    split; [constructor|]. split; [intros _; exact HsT|lia]. }
  simpl in Hlen. replace (n - 1)%nat with (length P) in Hpass by lia.
  change ((x :: P) ++ T) with ([] ++ x :: (P ++ T)) in Hpass.
  rewrite (bubble_pass_bubble (length P) []), bubble_app in Hpass by reflexivity.
  cbn [length] in Hpass.
  pose proof (bubble_swaps (length P) x P 0 1) as Hsw.
  destruct (bubble compare (length P) x P 0 1) as [r m'] eqn:Hb.
  simpl in Hpass, Hsw. injection Hpass as <- <-.
  assert (Hperm : forall z, z ∈ r -> z ∈ x :: P).
  { intros z Hz. apply swaps_Permutation in Hsw. now rewrite Hsw. }
  split; [now apply (swaps_app_r T) in Hsw|].
  destruct (bubble_full P (length P) x 0 1 r m' (le_n _) Hb)
    as [(-> & -> & Hsorted)|(Hm & Q & z & R & -> & HQ & Hsorted & HF & _)].
  - split; [|lia]. intros _.
    apply StronglySorted_app_2; [exact Hle| |exact HsT].
    now apply Sorted_StronglySorted; [apply le_trans|].
  - apply Sorted_StronglySorted in Hsorted; [|apply le_trans].
    assert (HzR : forall s, s ∈ z :: R -> le z s).
    { intros s Hin. apply elem_of_cons in Hin as [->|Hin]; [apply le_refl|].
      apply StronglySorted_inv in Hsorted as [_ HzR].
      rewrite Forall_forall in HzR. now apply HzR. }
    assert (Hinv : sorted_from compare m' ((Q ++ z :: R) ++ T)).
    { exists Q, ((z :: R) ++ T). split; [now rewrite <- app_assoc|].
      split; [lia|]. split.
      - apply StronglySorted_app_2; [|exact Hsorted|exact HsT].
        intros a b Ha Hb'. apply Hle; [|assumption].
        apply Hperm. apply elem_of_app. now right.
      - intros q s Hq Hin. apply elem_of_app in Hin as [Hin|Hin].
        + apply compare_trans with z; [|now apply HzR].
          rewrite Forall_forall in HF. now apply HF.
        + apply Hle; [|assumption]. apply Hperm. apply elem_of_app. now left. }
    split.
    + intros Hm1. now apply sorted_from_le_1 with m'.
    + intros _. split; [lia|exact Hinv].
Qed.

Lemma bubble_loop_sorts (fuel : nat) :
  forall (n : nat) (array : list A),
    (n < fuel)%nat -> sorted_from compare n array ->
    exists out, bubble_loop compare fuel array n = Done out /\
                swaps compare array out /\ StronglySorted le out.
Proof.
  induction fuel as [|fuel IH]; intros n array Hfuel Hinv; [lia|].
  cbn [bubble_loop].
  destruct (bubble_pass compare (n - 1) 0 array 1) as [array' m] eqn:Hpass.
  destruct (bubble_pass_step n array array' m Hinv Hpass) as (Hsw & Hdone & Hmore).
  destruct (1 <? m)%nat eqn:Hm.
  - apply Nat.ltb_lt in Hm. destruct (Hmore Hm) as [Hlt Hinv'].
    destruct (IH m array') as (out & Hout & Hsw' & Hs); [lia|assumption|].
    exists out. split; [assumption|]. split; [|assumption].
    now apply swaps_trans with array'.
  - apply Nat.ltb_ge in Hm. exists array'. split; [reflexivity|].
    split; [assumption|]. now apply Hdone.
Qed.

Lemma bubble_sort_sorts (array : list A) :
  exists out, bubble_sort compare array (length array) = Done out /\
              swaps compare array out /\ StronglySorted le out.
Proof.
  apply bubble_loop_sorts; [lia|].
  exists array, []. rewrite app_nil_r. repeat split; [constructor|].
  intros p s _ Hs. now apply not_elem_of_nil in Hs.
Qed.

End BubbleSortProofs.

Lemma same_ts_class (t : string) (x y : hist_entry) :
  cmp_entries x y = Gt -> same_ts t x && same_ts t y = false.
Proof.
  unfold same_ts, cmp_entries, cmp_hist_entry_timestamp. cbn [ptr_timestamp]. intros Hgt.
  destruct (differ (timestamp x) t) eqn:Hx; [reflexivity|].
  destruct (differ (timestamp y) t) eqn:Hy; [reflexivity|].
  apply differ_false in Hx, Hy.
  assert (Heq : strcmp (timestamp x) (timestamp y) = Eq) by (apply strcmp_eq; congruence).
  congruence.
Qed.

Lemma compare_lex_le (s t : string) : String.compare s t <> Gt <-> lex_le s t.
Proof.
  revert t. induction s as [|c s IH]; intros [|d t]; simpl.
  - split; [constructor|discriminate].
  - split; [constructor|discriminate].
  - split; [congruence|]. intros H. inversion H.
  - unfold Ascii.compare.
    destruct (N.compare_spec (N_of_ascii c) (N_of_ascii d)) as [Heq|Hlt|Hgt].
    + apply (f_equal ascii_of_N) in Heq. rewrite !ascii_N_embedding in Heq. subst d.
      rewrite IH. split; [now constructor|].
      intros H. inversion H as [|? ? ? ? Hlt|]; subst; [lia|assumption].
    + split; [intros _; now constructor|discriminate].
    + split; [congruence|].
      intros H. inversion H as [|? ? ? ? Hlt|]; subst; lia.
Qed.

Lemma cmp_stamp_le (a b : entry_ptr) : cmp_hist_entry_timestamp a b <> Gt <-> stamp_le a b.
Proof. apply compare_lex_le. Qed.

Lemma sorted_stamps (entries : list entry_ptr) :
  StronglySorted (cmp_le cmp_hist_entry_timestamp) entries ->
  StronglySorted stamp_le entries.
Proof.
  induction 1 as [|x l Hs IH Hall]; constructor; [assumption|].
  eapply Forall_impl; [exact Hall|]. intros y Hy. now apply cmp_stamp_le.
Qed.

Lemma bears_class (t : string) (x y : entry_ptr) :
  cmp_hist_entry_timestamp x y = Gt -> bears t x && bears t y = false.
Proof.
  unfold bears, cmp_hist_entry_timestamp, strcmp, stamp. intros Hgt.
  destruct (String.eqb_spec (c_str (ptr_timestamp x)) t) as [Hx|]; [|reflexivity].
  destruct (String.eqb_spec (c_str (ptr_timestamp y)) t) as [Hy|]; [|reflexivity].
  rewrite Hx, Hy, compare_refl in Hgt. discriminate.
Qed.

(** C7: the sort of the loader, [bubble_sort] with
    [cmp_hist_entry_timestamp], returns for every array of entries an array
    in which the timestamps stand in lexical order (each one before all
    that follow it, bytes compared as unsigned numbers), which is a
    permutation of the input and in which, for each timestamp, the entries
    that bear it stand in their original order. *)
Theorem bubble_sort_stable (entries : list entry_ptr) :
  exists out, bubble_sort cmp_hist_entry_timestamp entries (length entries) = Done out /\
              StronglySorted stamp_le out /\
              Permutation entries out /\
              forall t, List.filter (bears t) out = List.filter (bears t) entries.
Proof.
  destruct (bubble_sort_sorts cmp_hist_entry_timestamp
              (fun x y => strcmp_gt_le (ptr_timestamp x) (ptr_timestamp y))
              (fun x y z => strcmp_le_trans (ptr_timestamp x) (ptr_timestamp y) (ptr_timestamp z))
              entries) as (out & Hout & Hsw & Hs).
  exists out. split; [assumption|].
  split; [now apply sorted_stamps|].
  split; [now apply swaps_Permutation with cmp_hist_entry_timestamp|].
  intros t. symmetry.
  apply swaps_filter with cmp_hist_entry_timestamp; [apply bears_class|assumption].
Qed.

Lemma bubble_pass_fmap {A B : Type} (f : A -> B) (cmpA : A -> A -> comparison)
    (cmpB : B -> B -> comparison) (Hc : forall x y, cmpB (f x) (f y) = cmpA x y)
    (k i : nat) (l : list A) (n : nat) :
  bubble_pass cmpB k i (map f l) n
  = (map f (bubble_pass cmpA k i l n).1, (bubble_pass cmpA k i l n).2).
Proof.
  revert i l n. induction k as [|k IH]; intros i l n; [reflexivity|].
  cbn [bubble_pass]. change (map f l) with (f <$> l). rewrite !list_lookup_fmap.
  destruct (l !! i) as [x|]; [|reflexivity].
  destruct (l !! S i) as [y|]; [|reflexivity].
  cbn [fmap option_fmap option_map]. rewrite Hc.
  destruct (cmpA x y).
  - apply IH.
  - apply IH.
  - rewrite <- !list_fmap_insert. apply IH.
Qed.

Lemma bubble_loop_fmap {A B : Type} (f : A -> B) (cmpA : A -> A -> comparison)
    (cmpB : B -> B -> comparison) (Hc : forall x y, cmpB (f x) (f y) = cmpA x y)
    (fuel : nat) (l out : list A) (n : nat) :
  bubble_loop cmpA fuel l n = Done out ->
  bubble_loop cmpB fuel (map f l) n = Done (map f out).
Proof.
  revert l n. induction fuel as [|fuel IH]; intros l n; [discriminate|].
  cbn [bubble_loop]. rewrite (bubble_pass_fmap f cmpA cmpB Hc).
  destruct (bubble_pass cmpA (n - 1) 0 l 1) as [l' m]. cbn [fst snd].
  destruct (1 <? m)%nat; [apply IH|]. intros H. injection H as <-. reflexivity.
Qed.

Lemma bubble_sort_lined (es out : list hist_entry) :
  bubble_sort cmp_entries es (length es) = Done out ->
  bubble_sort cmp_hist_entry_timestamp (map Lined es) (length (map Lined es))
  = Done (map Lined out).
Proof.
  rewrite length_map. unfold bubble_sort.
  now apply bubble_loop_fmap.
Qed.

Lemma bubble_sort_entries (entries : list hist_entry) :
  exists out, bubble_sort cmp_entries entries (length entries) = Done out /\
              Sorted ts_le out /\
              Permutation entries out /\
              forall t, List.filter (same_ts t) out = List.filter (same_ts t) entries.
Proof.
  destruct (bubble_sort_sorts cmp_entries
              (fun x y => strcmp_gt_le (timestamp x) (timestamp y))
              (fun x y z => strcmp_le_trans (timestamp x) (timestamp y) (timestamp z))
              entries) as (out & Hout & Hsw & Hs).
  exists out. split; [assumption|].
  split; [now apply StronglySorted_Sorted|].
  split; [now apply swaps_Permutation with cmp_entries|].
  intros t. symmetry.
  apply swaps_filter with cmp_entries; [apply same_ts_class|assumption].
Qed.

(** ** Reading and writing one record *)

Lemma append_cons (x : ascii) (a b : string) : String x a +:+ b = String x (a +:+ b).
Proof. reflexivity. Qed.

Lemma append_assoc (a b c : string) : (a +:+ b) +:+ c = a +:+ b +:+ c.
Proof. induction a as [|x a IH]; [reflexivity|]. now rewrite !append_cons, IH. Qed.

Lemma append_nil_r (a : string) : a +:+ "" = a.
Proof. induction a as [|x a IH]; [reflexivity|]. now rewrite append_cons, IH. Qed.

Lemma fgetc_space (fh : FILE_in) : fgetc (" " +:+ fh) = fh.
Proof. reflexivity. Qed.

Lemma text_char_spec (c : ascii) :
  text_char c = true -> Ascii.eqb c NUL = false /\ Ascii.eqb c LF = false.
Proof.
  unfold text_char. destruct (Ascii.eqb c NUL), (Ascii.eqb c LF); simpl; intuition congruence.
Qed.

Lemma is_text_cons (c : ascii) (s : string) :
  is_text (String c s) -> text_char c = true /\ is_text s.
Proof. unfold is_text. simpl. now intros [? ?]%andb_true_iff. Qed.

Lemma c_str_text (s : string) : is_text s -> c_str s = s.
Proof.
  induction s as [|c s IH]; [reflexivity|].
  intros [[Hc _]%text_char_spec Hs]%is_text_cons. simpl. rewrite Hc. now rewrite IH.
Qed.

Lemma c_str_line (l : string) : is_line l -> c_str l = l.
Proof.
  intros (t & Ht & ->). induction t as [|c t IH]; [reflexivity|].
  apply is_text_cons in Ht as [[Hc _]%text_char_spec Ht].
  rewrite append_cons. simpl. rewrite Hc. now rewrite IH.
Qed.

Lemma fgets_bytes_text (s rest : string) :
  is_text s -> fgets_bytes (String.length s) (s +:+ rest) = (s, rest).
Proof.
  induction s as [|c s IH]; [reflexivity|].
  intros [[_ Hc]%text_char_spec Hs]%is_text_cons.
  rewrite append_cons. simpl. rewrite Hc. now rewrite IH.
Qed.

Lemma read_line_line (l rest : string) : is_line l -> read_line (l +:+ rest) = (l, rest).
Proof.
  intros (t & Ht & ->). induction t as [|c t IH]; [reflexivity|].
  apply is_text_cons in Ht as [[_ Hc]%text_char_spec Ht].
  rewrite !append_cons. simpl. rewrite Hc.
  now rewrite (IH Ht).
Qed.

Lemma getline_line (l rest : string) : is_line l -> getline (l +:+ rest) = Some (l, rest).
Proof.
  intros Hl. rewrite <- (read_line_line l rest Hl).
  destruct Hl as (t & _ & ->). now destruct t.
Qed.

Lemma read_lines_cat (ls : list string) (rest : string) :
  Forall is_line ls -> read_lines (length ls) (cat ls +:+ rest) = Some (ls, rest).
Proof.
  induction 1 as [|l ls Hl _ IH]; [reflexivity|].
  cbn [length read_lines cat foldr]. rewrite append_assoc, getline_line by assumption.
  fold (cat ls). now rewrite IH.
Qed.

Lemma count_field_all : forallb count_field_check (seq 0 1000) = true.
Proof. vm_compute. reflexivity. Qed.

Lemma count_field_spec (n : nat) :
  (n < 1000)%nat ->
  is_text (count_field n) /\ atoi (count_field n) = Z.of_nat n /\
  String.length (count_field n) = 3%nat.
Proof.
  intros Hn. pose proof count_field_all as Hall.
  rewrite forallb_forall in Hall. specialize (Hall n).
  unfold count_field_check in Hall.
  rewrite !andb_true_iff, Z.eqb_eq, Nat.eqb_eq in Hall.
  unfold is_text. apply and_assoc, Hall, in_seq. lia.
Qed.

Lemma fold_left_fputs (ls : list string) (out : FILE_out) :
  Forall is_line ls ->
  fold_left (fun out it => fputs it out) ls out = out +:+ cat ls.
Proof.
  intros Hls. revert out. induction Hls as [|l ls Hl _ IH]; intros out; simpl.
  - now rewrite append_nil_r.
  - rewrite IH. unfold fputs. rewrite c_str_line by assumption. apply append_assoc.
Qed.

Lemma read_entry_record (kind ts : string) (ls : list string) (rest : string) :
  String.length kind = 2%nat -> is_text kind ->
  String.length ts = 18%nat -> is_text ts ->
  (1 <= length ls <= 1000)%nat -> Forall is_line ls ->
  read_entry (record_text kind ts ls +:+ rest) =
  Entry (mk_hist_entry kind ts (count_field (length ls - 1)) ls) rest.
Proof.
  intros Hk Hkt Ht Htt Hn Hls.
  destruct (count_field_spec (length ls - 1)) as (Hct & Hatoi & Hcl); [lia|].
  unfold record_text, header, read_entry, fgets. rewrite !append_assoc.
  replace (Nat.pred 3) with (String.length kind) by now rewrite Hk.
  rewrite fgets_bytes_text by assumption.
  unfold strlen. rewrite c_str_text, Hk by assumption. cbn [Nat.eqb negb].
  rewrite fgetc_space.
  replace (Nat.pred 19) with (String.length ts) by now rewrite Ht.
  rewrite fgets_bytes_text by assumption. rewrite fgetc_space.
  replace (Nat.pred 4) with (String.length (count_field (length ls - 1))) by now rewrite Hcl.
  rewrite fgets_bytes_text by assumption. rewrite fgetc_space.
  rewrite Hatoi.
  destruct (Z.of_nat (length ls - 1) <? -1) eqn:Hneg; [apply Z.ltb_lt in Hneg; lia|].
  replace (Z.to_nat (Z.of_nat (length ls - 1) + 1)) with (length ls) by lia.
  now rewrite read_lines_cat.
Qed.

Lemma write_entry_record (kind ts : string) (ls : list string) (out : FILE_out) :
  is_text kind -> is_text ts -> (length ls <= 1000)%nat -> (1 <= length ls)%nat ->
  Forall is_line ls ->
  write_entry (mk_hist_entry kind ts (count_field (length ls - 1)) ls) out =
  out +:+ record_text kind ts ls.
Proof.
  intros Hkt Htt Hn1 Hn2 Hls.
  destruct (count_field_spec (length ls - 1)) as (Hct & _ & _); [lia|].
  unfold write_entry, record_text, header. cbn [type timestamp follow_lines lines].
  rewrite fold_left_fputs by assumption.
  unfold fputs, fputc. rewrite !c_str_text by assumption.
  now rewrite !append_assoc.
Qed.

(** C8, as the spec words it, at a concrete input: a record in the fixed
    format whose one line holds a NUL byte before its newline is read by
    [read_entry] as one entry, and [write_entry] writes that entry cut at
    the NUL, not the bytes that were read. *)
Lemma read_write_nul_counterexample :
  let kind := "MR" in
  let ts := sample_ts in
  let ls := ["he" +:+ String NUL "llo" +:+ nl] in
  String.length kind = 2%nat /\ String.length ts = 18%nat /\
  (1 <= length ls <= 1000)%nat /\ Forall newline_terminated ls /\
  exists entry,
    read_entry (record_text kind ts ls) = Entry entry "" /\
    write_entry entry "" = "MR 20100901T13:39:14Z 000 he" /\
    write_entry entry "" <> record_text kind ts ls.
Proof.
  cbv zeta. split; [reflexivity|]. split; [reflexivity|].
  split; [simpl; lia|]. split.
  - repeat constructor. exists ("he" +:+ String NUL "llo"). split; reflexivity.
  - eexists. split; [vm_compute; reflexivity|].
    split; [vm_compute; reflexivity|]. vm_compute. discriminate.
Qed.

(** C8, amended: the text of a record in the fixed format in which all
    bytes are text (a kind of two bytes and a timestamp of eighteen, none of
    them NUL or a newline, the count of following lines as three digits,
    single spaces between them and after the count, and that many lines
    plus one, each free of NUL and closed by its newline) is read by
    [read_entry] as one entry, with the stream left behind the record, and
    [write_entry] on that entry appends the very same bytes to the
    output. *)
Theorem read_write_roundtrip (kind ts : string) (ls : list string)
    (rest : FILE_in) (out : FILE_out) :
  String.length kind = 2%nat -> is_text kind ->
  String.length ts = 18%nat -> is_text ts ->
  (1 <= length ls <= 1000)%nat -> Forall is_line ls ->
  exists entry,
    read_entry (record_text kind ts ls +:+ rest) = Entry entry rest /\
    write_entry entry out = out +:+ record_text kind ts ls.
Proof.
  intros Hk Hkt Ht Htt Hn Hls.
  exists (mk_hist_entry kind ts (count_field (length ls - 1)) ls). split.
  - now apply read_entry_record.
  - apply write_entry_record; try assumption; lia.
Qed.

Lemma read_write_roundtrip_witness :
  let ls := ["hello" +:+ nl; "world" +:+ nl] in
  exists entry,
    read_entry (record_text "MR" sample_ts ls +:+ good_record) = Entry entry good_record /\
    write_entry entry "" = "" +:+ record_text "MR" sample_ts ls.
Proof.
  apply read_write_roundtrip.
  - reflexivity.
  - reflexivity.
  - reflexivity.
  - reflexivity.
  - simpl. lia.
  - repeat constructor.
    + exists "hello". split; reflexivity.
    + exists "world". split; reflexivity.
Defined.

(** *** Truncated records *)

Lemma line_count_read_line (s : string) :
  s <> "" -> line_count s = S (line_count (read_line s).2).
Proof.
  induction s as [|c s IH]; [congruence|]. intros _. simpl.
  destruct (Ascii.eqb c LF); [reflexivity|].
  destruct s as [|c' s]; [reflexivity|].
  rewrite IH by discriminate. now destruct (read_line (String c' s)).
Qed.

Lemma read_lines_short (k : nat) :
  forall fh : FILE_in, (line_count fh < k)%nat -> read_lines k fh = None.
Proof.
  induction k as [|k IH]; intros fh Hlt; [lia|].
  cbn [read_lines]. destruct fh as [|c fh]; [reflexivity|].
  cbn [getline].
  rewrite line_count_read_line in Hlt by discriminate.
  destruct (read_line (String c fh)) as [line rest]. simpl in Hlt.
  rewrite IH by lia. reflexivity.
Qed.

(** C9: after a header that announces the count 002, an input with fewer
    than three lines left makes [read_entry] print "Missing lines!" and
    return NULL: no entry, filled or partly filled, comes back. *)
Theorem read_entry_truncated (kind ts : string) (rest : FILE_in) :
  String.length kind = 2%nat -> is_text kind ->
  String.length ts = 18%nat -> is_text ts ->
  (line_count rest < 3)%nat ->
  read_entry (header kind ts "002" +:+ rest) = Null true.
Proof.
  intros Hk Hkt Ht Htt Hlines.
  unfold header, read_entry, fgets. rewrite !append_assoc.
  replace (Nat.pred 3) with (String.length kind) by now rewrite Hk.
  rewrite fgets_bytes_text by assumption.
  unfold strlen. rewrite c_str_text, Hk by assumption. cbn [Nat.eqb negb].
  rewrite fgetc_space.
  replace (Nat.pred 19) with (String.length ts) by now rewrite Ht.
  rewrite fgets_bytes_text by assumption. rewrite fgetc_space.
  change (Nat.pred 4) with (String.length "002").
  rewrite fgets_bytes_text by reflexivity. rewrite fgetc_space.
  change (atoi "002") with 2. cbn [Z.ltb Z.compare]. 
  change (Z.to_nat (2 + 1)) with 3%nat.
  now rewrite read_lines_short.
Qed.

Lemma read_entry_truncated_witness :
  read_entry (header "MR" sample_ts "002" +:+ "only one line" +:+ nl) = Null true.
Proof.
  apply read_entry_truncated.
  - reflexivity.
  - reflexivity.
  - reflexivity.
  - reflexivity.
  - vm_compute. lia.
Defined.

(** ** Loading a history *)

(** Each entry read takes at least two bytes from the stream, so the fuel
    given by [read_hist] is never used up. *)
Lemma fgets_bytes_length (k : nat) :
  forall fh buf rest, fgets_bytes k fh = (buf, rest) ->
    String.length fh = (String.length buf + String.length rest)%nat.
Proof.
  induction k as [|k IH]; intros fh buf rest H; simpl in H.
  - now injection H as <- <-.
  - destruct fh as [|c fh]; [now injection H as <- <-|].
    destruct (Ascii.eqb c LF); [now injection H as <- <-|].
    destruct (fgets_bytes k fh) as [b r] eqn:Hb. injection H as <- <-.
    simpl. now rewrite (IH fh b r Hb).
Qed.

Lemma fgetc_length (fh : FILE_in) : (String.length (fgetc fh) <= String.length fh)%nat.
Proof. destruct fh; simpl; lia. Qed.

Lemma read_line_length (fh : FILE_in) :
  (String.length (read_line fh).2 <= String.length fh)%nat.
Proof.
  induction fh as [|c fh IH]; simpl; [lia|].
  destruct (Ascii.eqb c LF); simpl; [lia|].
  destruct (read_line fh); simpl in *; lia.
Qed.

Lemma read_lines_length (k : nat) :
  forall fh ls rest, read_lines k fh = Some (ls, rest) ->
    (String.length rest <= String.length fh)%nat.
Proof.
  induction k as [|k IH]; intros fh ls rest H; cbn [read_lines] in H.
  - injection H as <- <-. lia.
  - destruct fh as [|c fh]; [discriminate|]. cbn [getline] in H.
    pose proof (read_line_length (String c fh)) as Hl.
    destruct (read_line (String c fh)) as [line fh'].
    destruct (read_lines k fh') as [[ls' rest']|] eqn:Hr; [|discriminate].
    injection H as <- <-. apply IH in Hr. cbn [snd] in Hl. lia.
Qed.

Lemma c_str_length (buf : string) : (String.length (c_str buf) <= String.length buf)%nat.
Proof.
  induction buf as [|c buf IH]; simpl; [lia|].
  destruct (Ascii.eqb c NUL); simpl; lia.
Qed.

Lemma read_entry_consumes (fh : FILE_in) (entry : hist_entry) (rest : FILE_in) :
  read_entry fh = Entry entry rest -> (String.length rest < String.length fh)%nat.
Proof.
  unfold read_entry, fgets.
  destruct (fgets_bytes (Nat.pred 3) fh) as [ty fh1] eqn:H1.
  destruct (negb (strlen ty =? 2)%nat) eqn:Hlen; [discriminate|].
  apply negb_false_iff, Nat.eqb_eq in Hlen.
  destruct (fgets_bytes (Nat.pred 19) (fgetc fh1)) as [ts fh2] eqn:H2.
  destruct (fgets_bytes (Nat.pred 4) (fgetc fh2)) as [fl fh3] eqn:H3.
  destruct (atoi fl <? -1); [discriminate|].
  destruct (read_lines _ (fgetc fh3)) as [[ls rest']|] eqn:H4; [|discriminate].
  intros [= _ <-].
  apply fgets_bytes_length in H1, H2, H3. apply read_lines_length in H4.
  pose proof (fgetc_length fh1). pose proof (fgetc_length fh2).
  pose proof (fgetc_length fh3). pose proof (c_str_length ty).
  unfold strlen in Hlen. lia.
Qed.

Lemma read_entry_consumes_unlined (fh : FILE_in) (ty ts fl : string) (rest : FILE_in) :
  read_entry fh = NoLines ty ts fl rest -> (String.length rest < String.length fh)%nat.
Proof.
  unfold read_entry, fgets.
  destruct (fgets_bytes (Nat.pred 3) fh) as [ty' fh1] eqn:H1.
  destruct (negb (strlen ty' =? 2)%nat) eqn:Hlen; [discriminate|].
  apply negb_false_iff, Nat.eqb_eq in Hlen.
  destruct (fgets_bytes (Nat.pred 19) (fgetc fh1)) as [ts' fh2] eqn:H2.
  destruct (fgets_bytes (Nat.pred 4) (fgetc fh2)) as [fl' fh3] eqn:H3.
  destruct (atoi fl' <? -1).
  - intros [= _ _ _ <-].
    apply fgets_bytes_length in H1, H2, H3.
    pose proof (fgetc_length fh1). pose proof (fgetc_length fh2).
    pose proof (fgetc_length fh3). pose proof (c_str_length ty').
    unfold strlen in Hlen. lia.
  - destruct (read_lines _ (fgetc fh3)) as [[ls rest']|]; discriminate.
Qed.

(** The loop of [read_hist] always comes to its end, and to an array. *)
Lemma read_hist_loop_done (fuel : nat) :
  forall fh entries, (String.length fh < fuel)%nat ->
    exists out, read_hist_loop fuel fh entries = Done out.
Proof.
  induction fuel as [|fuel IH]; intros fh entries Hfuel; [lia|].
  cbn [read_hist_loop].
  destruct (read_entry fh) as [entry rest|warned|ty ts fl rest] eqn:Hr.
  - apply IH. apply read_entry_consumes in Hr. lia.
  - now exists entries.
  - apply IH. apply read_entry_consumes_unlined in Hr. lia.
Qed.

Lemma bubble_sort_ptrs (entries : list entry_ptr) :
  exists out, bubble_sort cmp_hist_entry_timestamp entries (length entries) = Done out /\
              StronglySorted (cmp_le cmp_hist_entry_timestamp) out /\
              Permutation entries out.
Proof.
  destruct (bubble_sort_sorts cmp_hist_entry_timestamp
              (fun x y => strcmp_gt_le (ptr_timestamp x) (ptr_timestamp y))
              (fun x y z => strcmp_le_trans (ptr_timestamp x) (ptr_timestamp y) (ptr_timestamp z))
              entries) as (out & Hout & Hsw & Hs).
  exists out. split; [assumption|]. split; [assumption|].
  now apply swaps_Permutation with cmp_hist_entry_timestamp.
Qed.

Lemma read_hist_returns (fh : FILE_in) : exists r, read_hist fh = Done r.
Proof.
  unfold read_hist.
  destruct (read_hist_loop_done (S (String.length fh)) fh [] (Nat.lt_succ_diag_r _))
    as (entries & ->).
  cbn [obind].
  destruct (bubble_sort_ptrs entries) as (out & -> & _). cbn [obind]. eauto.
Qed.

Theorem read_hist_total (fh : FILE_in) : read_hist fh <> OutOfFuel.
Proof. destruct (read_hist_returns fh) as (r & ->). discriminate. Qed.

(** Every entry that [read_entry] returns, and so every entry of a loaded
    history, is well formed; a loaded history is sorted. *)
Lemma read_lines_count (k : nat) :
  forall fh ls rest, read_lines k fh = Some (ls, rest) -> length ls = k.
Proof.
  induction k as [|k IH]; intros fh ls rest H; cbn [read_lines] in H.
  - now injection H as <- <-.
  - destruct (getline fh) as [[line fh']|]; [|discriminate].
    destruct (read_lines k fh') as [[ls' rest']|] eqn:Hr; [|discriminate].
    injection H as <- <-. simpl. f_equal. now apply IH in Hr.
Qed.

Lemma read_entry_well_formed (fh : FILE_in) (entry : hist_entry) (rest : FILE_in) :
  read_entry fh = Entry entry rest -> well_formed entry.
Proof.
  unfold read_entry, fgets.
  destruct (fgets_bytes (Nat.pred 3) fh) as [ty fh1].
  destruct (negb (strlen ty =? 2)%nat); [discriminate|].
  destruct (fgets_bytes (Nat.pred 19) (fgetc fh1)) as [ts fh2].
  destruct (fgets_bytes (Nat.pred 4) (fgetc fh2)) as [fl fh3].
  destruct (atoi fl <? -1) eqn:Hn; [discriminate|]. apply Z.ltb_ge in Hn.
  destruct (read_lines _ (fgetc fh3)) as [[ls rest']|] eqn:Hr; [|discriminate].
  intros [= <- _]. apply read_lines_count in Hr.
  unfold well_formed. simpl. lia.
Qed.

Lemma read_entry_unlined (fh : FILE_in) (ty ts fl : string) (rest : FILE_in) :
  read_entry fh = NoLines ty ts fl rest -> strlen ty = 2%nat /\ atoi fl < -1.
Proof.
  unfold read_entry, fgets.
  destruct (fgets_bytes (Nat.pred 3) fh) as [ty' fh1].
  destruct (negb (strlen ty' =? 2)%nat) eqn:Hlen; [discriminate|].
  apply negb_false_iff, Nat.eqb_eq in Hlen.
  destruct (fgets_bytes (Nat.pred 19) (fgetc fh1)) as [ts' fh2].
  destruct (fgets_bytes (Nat.pred 4) (fgetc fh2)) as [fl' fh3].
  destruct (atoi fl' <? -1) eqn:Hn.
  - apply Z.ltb_lt in Hn. intros [= <- _ <- _]. now split.
  - destruct (read_lines _ (fgetc fh3)) as [[ls rest']|]; discriminate.
Qed.

Lemma read_entry_kind (fh : FILE_in) (entry : hist_entry) (rest : FILE_in) :
  read_entry fh = Entry entry rest -> strlen (type entry) = 2%nat.
Proof.
  unfold read_entry, fgets.
  destruct (fgets_bytes (Nat.pred 3) fh) as [ty fh1].
  destruct (negb (strlen ty =? 2)%nat) eqn:Hlen; [discriminate|].
  apply negb_false_iff, Nat.eqb_eq in Hlen.
  destruct (fgets_bytes (Nat.pred 19) (fgetc fh1)) as [ts fh2].
  destruct (fgets_bytes (Nat.pred 4) (fgetc fh2)) as [fl fh3].
  destruct (atoi fl <? -1); [discriminate|].
  destruct (read_lines _ (fgetc fh3)) as [[ls rest']|]; [|discriminate].
  now intros [= <- _].
Qed.

Lemma read_hist_loop_well_formed (fuel : nat) :
  forall fh entries out,
    Forall read_back entries ->
    read_hist_loop fuel fh entries = Done out -> Forall read_back out.
Proof.
  induction fuel as [|fuel IH]; intros fh entries out Hwf H; [discriminate|].
  cbn [read_hist_loop] in H.
  destruct (read_entry fh) as [entry rest|warned|ty ts fl rest] eqn:Hr.
  - apply (IH rest (insert_hist_entry entries entry)); [|assumption].
    apply Forall_app. split; [assumption|].
    constructor; [|constructor].
    split; [now apply read_entry_kind in Hr|now apply read_entry_well_formed in Hr].
  - now injection H as <-.
  - apply (IH rest (insert_hist_entry entries (Unlined ty ts fl))); [|assumption].
    apply Forall_app. split; [assumption|].
    constructor; [|constructor]. now apply read_entry_unlined in Hr.
Qed.

Lemma read_hist_loaded_ptrs (fh : FILE_in) (entries : list entry_ptr) :
  read_hist fh = Done (Some entries) ->
  entries <> [] /\ Forall read_back entries /\
  StronglySorted (cmp_le cmp_hist_entry_timestamp) entries.
Proof.
  unfold read_hist.
  destruct (read_hist_loop _ fh []) as [loaded| |] eqn:Hl; try discriminate.
  apply read_hist_loop_well_formed in Hl; [|constructor]. cbn [obind].
  destruct (bubble_sort_ptrs loaded) as (out & -> & Hs & Hp). cbn [obind].
  intros [= H]. destruct out as [|e out]; [discriminate|]. injection H as <-.
  split; [discriminate|]. split; [|assumption]. now rewrite <- Hp.
Qed.

Lemma sorted_lined (es : list hist_entry) :
  StronglySorted (cmp_le cmp_hist_entry_timestamp) (map Lined es) -> Sorted ts_le es.
Proof.
  intros H. apply StronglySorted_Sorted.
  induction es as [|e es IH]; [constructor|].
  cbn [map] in H. apply StronglySorted_inv in H as [Hs Hall].
  constructor; [now apply IH|].
  apply Forall_forall. intros x Hx.
  rewrite Forall_forall in Hall. apply (Hall (Lined x)).
  change (map Lined es) with (Lined <$> es). now apply list_elem_of_fmap_2.
Qed.

Lemma read_back_lined (es : list hist_entry) :
  Forall read_back (map Lined es) -> Forall well_formed es.
Proof.
  induction es as [|e es IH]; intros H; [constructor|].
  cbn [map] in H. apply Forall_cons in H as [[_ He] H]. constructor; auto.
Qed.

Lemma read_hist_loaded (fh : FILE_in) (entries : list hist_entry) :
  read_hist fh = Done (Some (map Lined entries)) ->
  Forall well_formed entries /\ Sorted ts_le entries.
Proof.
  intros H. apply read_hist_loaded_ptrs in H as (_ & Hwf & Hs).
  split; [now apply read_back_lined|now apply sorted_lined].
Qed.

Lemma read_hist_loop_null (fuel : nat) (fh : FILE_in) (entries : list entry_ptr)
    (warned : bool) :
  read_entry fh = Null warned -> read_hist_loop (S fuel) fh entries = Done entries.
Proof. intros H. cbn [read_hist_loop]. now rewrite H. Qed.

(** C1, at a log whose second record is truncated: [read_entry] fails on
    that record with its warning, and [read_hist] still returns an array,
    holding the one entry read before the failure, as if the log had ended
    there; [merge_files] on that log then writes the merged output and
    returns 1. *)
Theorem read_hist_truncated_partial :
  read_entry truncated_record = Null true /\
  read_hist (good_record +:+ truncated_record) = Done (Some [Lined good_entry]) /\
  exists fs,
    merge_files truncated_fs ("logs", "one.log") ("logs", "two.log") ("logs", "out.log")
      = Done (fs, 1) /\
    fopen_r fs ("logs", "out.log") = Some (log_b +:+ good_record).
Proof.
  split; [vm_compute; reflexivity|]. split; [vm_compute; reflexivity|].
  destruct (merge_files truncated_fs ("logs", "one.log") ("logs", "two.log")
              ("logs", "out.log")) as [[fs status]| |] eqn:Hm;
    vm_compute in Hm; [|discriminate..].
  injection Hm as <- <-. eexists. split; [reflexivity|]. vm_compute. reflexivity.
Qed.

(** ** Merging files: the fuel is a device of the model only *)

Lemma eq_hist_entry_fuel (a b : hist_entry) : eq_hist_entry a b <> OutOfFuel.
Proof.
  unfold eq_hist_entry. destruct (_ || _); [discriminate|].
  generalize (lines b). induction (lines a) as [|la ls IH]; intros [|lb ls']; simpl;
    try discriminate.
  destruct (differ la lb); [discriminate|apply IH].
Qed.

Lemma merge_entries_fuel (A B : list hist_entry) : merge_entries A B <> OutOfFuel.
Proof.
  revert B. induction A as [|a A IHA]; intros B; [discriminate|].
  induction B as [|b B IHB]; [discriminate|].
  rewrite merge_entries_cons. destruct (strcmp (timestamp a) (timestamp b)).
  - pose proof (eq_hist_entry_fuel a b) as He.
    destruct (eq_hist_entry a b) as [same| |]; simpl; try congruence.
    specialize (IHA (if same then B else b :: B)).
    destruct (merge_entries A _); simpl; congruence.
  - specialize (IHA (b :: B)). destruct (merge_entries A _); simpl; congruence.
  - destruct (merge_entries (a :: A) B); simpl; congruence.
Qed.

Lemma free_hist_entries_fuel (entries : list entry_ptr) :
  free_hist_entries entries <> OutOfFuel.
Proof.
  induction entries as [|[e|ty ts fl] l IH]; simpl; [discriminate|assumption|discriminate].
Qed.

Lemma free_hist_entries_lined (es : list hist_entry) :
  free_hist_entries (map Lined es) = Done tt.
Proof. induction es as [|e es IH]; [reflexivity|exact IH]. Qed.


Lemma lined_Some (entries : list entry_ptr) (es : list hist_entry) :
  lined entries = Some es -> entries = map Lined es.
Proof.
  revert es. induction entries as [|[e|ty ts fl] l IH]; intros es H; cbn [lined] in H.
  - now injection H as <-.
  - destruct (lined l) as [es'|]; [|discriminate]. injection H as <-.
    cbn [map]. f_equal. now apply IH.
  - discriminate.
Qed.

Lemma merge_files_fuel (fs : filesystem) (file1 file2 fileO : path) :
  merge_files fs file1 file2 fileO <> OutOfFuel.
Proof.
  unfold merge_files.
  destruct (fopen_r fs file1) as [fh1|]; [|discriminate].
  destruct (read_hist_returns fh1) as ([hist1|] & ->); cbn [obind]; [|discriminate].
  pose proof (free_hist_entries_fuel hist1) as Hf1.
  destruct (fopen_r fs file2) as [fh2|];
    [|destruct (free_hist_entries hist1); simpl; congruence].
  destruct (read_hist_returns fh2) as ([hist2|] & ->); cbn [obind];
    [|destruct (free_hist_entries hist1); simpl; congruence].
  pose proof (free_hist_entries_fuel hist2) as Hf2.
  destruct (fopen_w fs fileO).
  - destruct (lined hist1) as [a|]; [|discriminate].
    destruct (lined hist2) as [b|]; [|discriminate].
    pose proof (merge_entries_fuel a b) as Hm.
    destruct (merge_entries a b); simpl; try congruence.
    destruct (free_hist_entries hist1); simpl; try congruence.
    destruct (free_hist_entries hist2); simpl; congruence.
  - destruct (free_hist_entries hist1); simpl; try congruence.
    destruct (free_hist_entries hist2); simpl; congruence.
Qed.

Lemma merge_dirs_fuel (fs : filesystem) (dir1 dir2 dirO : string) :
  merge_dirs fs dir1 dir2 dirO <> OutOfFuel.
Proof.
  assert (Hloop : forall body files st,
    (forall file st', body file st' <> OutOfFuel) ->
    readdir_loop body files st <> OutOfFuel).
  { intros body files. induction files as [|file files IH]; intros st Hbody;
      [discriminate|].
    cbn [readdir_loop]. specialize (Hbody file st) as Hb.
    destruct (body file st); simpl; try congruence. now apply IH. }
  assert (H1 : forall file st, merge_dirs_step1 dir1 dir2 dirO file st <> OutOfFuel).
  { intros file [fs' status]. unfold merge_dirs_step1.
    destruct (skipped file); [discriminate|].
    destruct (access fs' _); [|discriminate].
    pose proof (merge_files_fuel fs' (dir1, d_name file) (dir2, d_name file)
                  (dirO, d_name file)) as Hm.
    destruct (merge_files fs' _ _ _); simpl; congruence. }
  assert (H2 : forall file st, merge_dirs_step2 dir1 dir2 dirO file st <> OutOfFuel).
  { intros file [fs' status]. unfold merge_dirs_step2.
    destruct (skipped file); [discriminate|].
    destruct (negb _); discriminate. }
  unfold merge_dirs. destruct (dirs fs !! dir1) as [d|]; [|discriminate].
  specialize (Hloop _ (readdir d) (fs, 1) H1) as Hl1.
  destruct (readdir_loop _ (readdir d) (fs, 1)) as [[fs' status]| |]; simpl;
    try congruence.
  destruct (dirs fs' !! dir1) as [d'|]; [|discriminate].
  now apply Hloop.
Qed.

(** ** Merging directories *)

Lemma merge_dirs_step2_listed (dir1 dir2 dirO : string) (fs : filesystem)
    (d : gmap string node) (status : Z) (file : dirent) :
  dirs fs !! dir1 = Some d -> (forall name, d !! name <> Some Dangling) ->
  file ∈ readdir d ->
  merge_dirs_step2 dir1 dir2 dirO file (fs, status) = Done (fs, status).
Proof.
  intros Hd Hnd Hfile. unfold merge_dirs_step2.
  destruct (skipped file) eqn:Hskip; [reflexivity|].
  unfold readdir in Hfile.
  apply elem_of_cons in Hfile as [->|Hfile]; [discriminate|].
  apply elem_of_cons in Hfile as [->|Hfile]; [discriminate|].
  apply list_elem_of_fmap in Hfile as ([name nd] & -> & Hin).
  apply elem_of_map_to_list in Hin.
  unfold access, stat, lookup_path. simpl. rewrite Hd, Hin.
  destruct nd; try reflexivity. now destruct (Hnd name).
Qed.

(** The second loop of [merge_dirs] lists [dir1] and asks for each name
    whether [access] fails on it in [dir1]: short of a dangling link there,
    it never does, so the loop copies nothing. *)
Lemma merge_dirs_second_pass (dir1 dir2 dirO : string) (fs : filesystem)
    (d : gmap string node) (status : Z) :
  dirs fs !! dir1 = Some d -> (forall name, d !! name <> Some Dangling) ->
  readdir_loop (merge_dirs_step2 dir1 dir2 dirO) (readdir d) (fs, status) =
  Done (fs, status).
Proof.
  intros Hd Hnd.
  assert (Hall : forall files, (forall file, file ∈ files -> file ∈ readdir d) ->
    readdir_loop (merge_dirs_step2 dir1 dir2 dirO) files (fs, status) = Done (fs, status)).
  { induction files as [|file files IH]; intros Hin; [reflexivity|].
    cbn [readdir_loop].
    rewrite (merge_dirs_step2_listed dir1 dir2 dirO fs d status file Hd Hnd)
      by (apply Hin; left).
    simpl. apply IH. intros f Hf. apply Hin. now right. }
  now apply Hall.
Qed.

(** C2, on the directory scenario: [merge_dirs] returns 1 and leaves in
    [outDir] the copy of "a.log" and the merged "shared.log", but no
    "b.log". *)
Theorem merge_dirs_scenario :
  exists fs, merge_dirs scenario "dirA" "dirB" "outDir" = Done (fs, 1) /\
    fopen_r fs ("outDir", "a.log") = Some log_a /\
    fopen_r fs ("outDir", "shared.log") = Some log_shared_merged /\
    lookup_path fs ("outDir", "b.log") = None.
Proof.
  destruct (merge_dirs scenario "dirA" "dirB" "outDir") as [[fs status]| |] eqn:Hm.
  - exists fs. vm_compute in Hm. injection Hm as <- <-.
    repeat split; vm_compute; reflexivity.
  - vm_compute in Hm. discriminate.
  - vm_compute in Hm. discriminate.
Qed.


(** * Further properties of the code *)

(** ** The exact-duplicate test, in general *)

Lemma differ_sym (a b : string) : differ a b = differ b a.
Proof.
  unfold differ. rewrite (strcmp_antisym a b). now destruct (strcmp b a).
Qed.

Lemma eq_lines_true_iff (la lb : list string) :
  eq_lines la lb = Done true <-> map c_str la = map c_str lb.
Proof.
  split; [apply eq_lines_true|].
  revert lb. induction la as [|a la IH]; intros [|b lb] H; simpl in *; try discriminate.
  - reflexivity.
  - injection H as Hab Hl. apply differ_false in Hab. rewrite Hab. now apply IH.
Qed.

Lemma eq_lines_sym (la lb : list string) : eq_lines la lb = eq_lines lb la.
Proof.
  revert lb. induction la as [|a la IH]; intros [|b lb]; simpl; try reflexivity.
  rewrite (differ_sym b a). destruct (differ a b); [reflexivity|apply IH].
Qed.

Lemma eq_hist_entry_true_fields (a b : hist_entry) :
  eq_hist_entry a b = Done true <->
  c_str (type a) = c_str (type b) /\
  c_str (timestamp a) = c_str (timestamp b) /\
  c_str (follow_lines a) = c_str (follow_lines b) /\
  body a = body b.
Proof.
  unfold eq_hist_entry, body. rewrite <- !differ_false, <- eq_lines_true_iff.
  destruct (differ (type a) (type b)), (differ (timestamp a) (timestamp b)),
    (differ (follow_lines a) (follow_lines b)); simpl; intuition congruence.
Qed.

(** X1: [eq_hist_entry] answers 1 exactly when the three header fields and
    all the lines of the two entries are the same C strings. *)
Theorem eq_hist_entry_true_iff (a b : hist_entry) :
  eq_hist_entry a b = Done true <->
  c_str (type a) = c_str (type b) /\
  c_str (timestamp a) = c_str (timestamp b) /\
  c_str (follow_lines a) = c_str (follow_lines b) /\
  body a = body b.
Proof. apply eq_hist_entry_true_fields. Qed.

(** X2: the test does not depend on the order of its two arguments, the
    case in which it reads past a line array included. *)
Theorem eq_hist_entry_sym (a b : hist_entry) : eq_hist_entry a b = eq_hist_entry b a.
Proof.
  unfold eq_hist_entry.
  rewrite (differ_sym (type b)), (differ_sym (timestamp b)), (differ_sym (follow_lines b)).
  destruct (_ || _); [reflexivity|apply eq_lines_sym].
Qed.

Lemma fold_left_fputs_body (ls : list string) (out : FILE_out) :
  fold_left (fun out it => fputs it out) ls out = out +:+ cat (map c_str ls).
Proof.
  revert out. induction ls as [|l ls IH]; intros out; simpl.
  - now rewrite append_nil_r.
  - rewrite IH. unfold fputs. apply append_assoc.
Qed.

Lemma write_entry_entry_text (e : hist_entry) (out : FILE_out) :
  write_entry e out = out +:+ entry_text e.
Proof.
  unfold write_entry, entry_text, body. rewrite fold_left_fputs_body.
  unfold fputs, fputc. now rewrite !append_assoc.
Qed.

(** X3: two entries that [eq_hist_entry] finds equal are written as the
    same bytes, so the output does not tell which of the two the merge
    kept. *)
Theorem eq_hist_entry_same_output (a b : hist_entry) (out : FILE_out) :
  eq_hist_entry a b = Done true -> write_entry a out = write_entry b out.
Proof.
  intros (Hty & Hts & Hfl & Hbody)%eq_hist_entry_true_fields.
  rewrite !write_entry_entry_text. unfold entry_text.
  now rewrite Hty, Hts, Hfl, Hbody.
Qed.

Lemma eq_hist_entry_same_output_witness :
  write_entry entry_x "" = write_entry (with_lines entry_x ["x" +:+ nl +:+ String NUL "tail"]) "".
Proof. apply eq_hist_entry_same_output. reflexivity. Defined.

(** ** The merge loop, in general *)

Lemma merge_entries_shape (A : list hist_entry) :
  forall B out, merge_entries A B = Done out ->
    exists B', B' `sublist_of` B /\ interleave A B' out /\
      forall b, b ∈ B -> b ∈ B' \/ exists a, a ∈ A /\ eq_hist_entry a b = Done true.
Proof.
  induction A as [|a A IHA]; intros B out Hm.
  { injection Hm as <-. exists B. split; [reflexivity|].
    split; [apply interleave_nil_l|]. now left. }
  induction B as [|b B IHB] in out, Hm |- *.
  { injection Hm as <-. exists []. split; [reflexivity|].
    split; [apply interleave_nil_r|]. intros b Hb. now apply not_elem_of_nil in Hb. }
  rewrite merge_entries_cons in Hm.
  assert (Hkeep : forall out', merge_entries A (b :: B) = Done out' ->
    exists B', B' `sublist_of` b :: B /\ interleave (a :: A) B' (a :: out') /\
      forall b0, b0 ∈ b :: B ->
        b0 ∈ B' \/ exists a0, a0 ∈ a :: A /\ eq_hist_entry a0 b0 = Done true).
  { intros out' Hm'. destruct (IHA _ _ Hm') as (B' & Hsub & Hi & Hrep).
    exists B'. split; [assumption|]. split; [now constructor|].
    intros b0 Hb0. destruct (Hrep b0 Hb0) as [?|(a0 & Ha0 & He)]; [now left|].
    right. exists a0. split; [now right|assumption]. }
  destruct (strcmp (timestamp a) (timestamp b)).
  - destruct (eq_hist_entry a b) as [[|]| |] eqn:He; simpl in Hm; try discriminate.
    + destruct (merge_entries A B) as [out'| |] eqn:Hm'; simpl in Hm; try discriminate.
      injection Hm as <-. destruct (IHA _ _ Hm') as (B' & Hsub & Hi & Hrep).
      exists B'. split; [now constructor|]. split; [now constructor|].
      intros b0 Hb0. apply elem_of_cons in Hb0 as [->|Hb0].
      * right. exists a. split; [left|assumption].
      * destruct (Hrep b0 Hb0) as [?|(a0 & Ha0 & He0)]; [now left|].
        right. exists a0. split; [now right|assumption].
    + destruct (merge_entries A (b :: B)) as [out'| |] eqn:Hm'; simpl in Hm;
        try discriminate.
      injection Hm as <-. now apply Hkeep.
  - destruct (merge_entries A (b :: B)) as [out'| |] eqn:Hm'; simpl in Hm;
      try discriminate.
    injection Hm as <-. now apply Hkeep.
  - destruct (merge_entries (a :: A) B) as [out'| |] eqn:Hm'; simpl in Hm;
      try discriminate.
    injection Hm as <-. destruct (IHB _ eq_refl) as (B' & Hsub & Hi & Hrep).
    exists (b :: B'). split; [now constructor|]. split; [now constructor|].
    intros b0 Hb0. apply elem_of_cons in Hb0 as [->|Hb0]; [left; left|].
    destruct (Hrep b0 Hb0) as [?|?]; [left; now right|now right].
Qed.

(** X4: whatever the two inputs hold, sorted or not, the merge writes every
    entry of the first input, in the order of that input, and besides them
    only entries of the second input, in the order of that input: it never
    drops, repeats or invents an entry of the first input, and writes
    between [|A|] and [|A| + |B|] entries. *)
Theorem merge_entries_keeps_first (A B out : list hist_entry) :
  merge_entries A B = Done out ->
  A `sublist_of` out /\
  (exists B', B' `sublist_of` B /\ interleave A B' out) /\
  (length A <= length out <= length A + length B)%nat.
Proof.
  intros (B' & Hsub & Hi & _)%merge_entries_shape.
  split; [now apply interleave_sublist_l with B'|].
  split; [now exists B'|].
  apply interleave_length in Hi. apply sublist_length in Hsub. lia.
Qed.

Lemma merge_entries_keeps_first_witness :
  let A := [entry_x; entry_late] in
  let B := [entry_y; entry_late] in
  let out := [entry_x; entry_y; entry_late] in
  A `sublist_of` out /\
  (exists B', B' `sublist_of` B /\ interleave A B' out) /\
  (length A <= length out <= length A + length B)%nat.
Proof. apply (merge_entries_keeps_first _ [entry_y; entry_late]). reflexivity. Defined.

(** X5: an entry of the second input is left out of the output only when
    [eq_hist_entry] found it equal to an entry of the first input; every
    other one is written. *)
Theorem merge_entries_drops_only_duplicates (A B out : list hist_entry) (b : hist_entry) :
  merge_entries A B = Done out -> b ∈ B ->
  b ∈ out \/ exists a, a ∈ A /\ a ∈ out /\ eq_hist_entry a b = Done true.
Proof.
  intros (B' & Hsub & Hi & Hrep)%merge_entries_shape Hb.
  destruct (Hrep b Hb) as [Hb'|(a & Ha & He)].
  - left. eapply elem_of_sublist; [exact Hb'|]. now apply interleave_sublist_r with A.
  - right. exists a. split; [assumption|]. split; [|assumption].
    eapply elem_of_sublist; [exact Ha|]. now apply interleave_sublist_l with B'.
Qed.

Lemma merge_entries_drops_only_duplicates_witness :
  entry_late ∈ [entry_x; entry_y; entry_late] \/
  exists a, a ∈ [entry_x; entry_late] /\ a ∈ [entry_x; entry_y; entry_late] /\
            eq_hist_entry a entry_late = Done true.
Proof.
  apply (merge_entries_drops_only_duplicates [entry_x; entry_late] [entry_y; entry_late]).
  - reflexivity.
  - right. left.
Defined.

Lemma merge_entries_done (A : list hist_entry) :
  forall B, Forall well_formed A -> Forall well_formed B ->
    exists out, merge_entries A B = Done out.
Proof.
  induction A as [|a A IHA]; intros B HwA HwB; [now exists B|].
  apply Forall_cons in HwA as [Hwa HwA].
  induction B as [|b B IHB]; [now exists (a :: A)|].
  apply Forall_cons in HwB as [Hwb HwB].
  rewrite merge_entries_cons. destruct (strcmp (timestamp a) (timestamp b)).
  - destruct (eq_hist_entry_done a b Hwa Hwb) as [same ->]. simpl.
    destruct (IHA (if same then B else b :: B)) as [out ->]; [assumption| |simpl; eauto].
    destruct same; [assumption|now constructor].
  - destruct (IHA (b :: B)) as [out ->]; [assumption|now constructor|simpl; eauto].
  - destruct (IHB HwB) as [out ->]. simpl. eauto.
Qed.

Lemma StronglySorted_sublist (l1 l2 : list hist_entry) :
  l1 `sublist_of` l2 -> StronglySorted ts_le l2 -> StronglySorted ts_le l1.
Proof.
  induction 1 as [|x l1 l2 Hsub IH|x l1 l2 Hsub IH]; intros Hs.
  - constructor.
  - apply StronglySorted_inv in Hs as [Hs Hx]. constructor; [now apply IH|].
    rewrite Forall_forall in Hx. apply Forall_forall. intros z Hz.
    apply Hx. now apply elem_of_sublist with l1.
  - apply StronglySorted_inv in Hs as [Hs _]. now apply IH.
Qed.

Lemma merge_entries_sorted_strong (A : list hist_entry) :
  forall B out, StronglySorted ts_le A -> StronglySorted ts_le B ->
    merge_entries A B = Done out -> StronglySorted ts_le out.
Proof.
  induction A as [|a A IHA]; intros B out HsA HsB Hm; [now injection Hm as <-|].
  induction B as [|b B IHB] in out, HsB, Hm |- *; [now injection Hm as <-|].
  rewrite merge_entries_cons in Hm.
  pose proof HsA as HsA'. apply StronglySorted_inv in HsA' as [HsA' HaA].
  pose proof HsB as HsB'. apply StronglySorted_inv in HsB' as [HsB' HbB].
  rewrite Forall_forall in HaA, HbB.
  assert (Hfirst : strcmp (timestamp a) (timestamp b) <> Gt ->
    forall B0 out', B0 `sublist_of` b :: B -> merge_entries A B0 = Done out' ->
      StronglySorted ts_le (a :: out')).
  { intros Hle B0 out' Hsub Hm'. constructor.
    - apply (IHA B0); [assumption| |assumption].
      eapply StronglySorted_sublist; [exact Hsub|exact HsB].
    - apply Forall_forall. intros z Hz.
      apply merge_entries_shape in Hm' as (B' & Hsub' & Hi & _).
      destruct (interleave_elem_of _ _ _ z Hi Hz) as [Hz'|Hz']; [now apply HaA|].
      assert (Hzb : z ∈ b :: B).
      { eapply elem_of_sublist; [exact Hz'|]. now transitivity B0. }
      apply elem_of_cons in Hzb as [->|Hzb]; [assumption|].
      transitivity b; [assumption|now apply HbB]. }
  destruct (strcmp (timestamp a) (timestamp b)) eqn:Hts.
  - destruct (eq_hist_entry a b) as [same| |]; simpl in Hm; try discriminate.
    destruct (merge_entries A (if same then B else b :: B)) as [out'| |] eqn:Hm';
      simpl in Hm; try discriminate.
    injection Hm as <-. eapply Hfirst; [discriminate| |exact Hm'].
    destruct same; [now constructor|reflexivity].
  - destruct (merge_entries A (b :: B)) as [out'| |] eqn:Hm'; simpl in Hm;
      try discriminate.
    injection Hm as <-. eapply Hfirst; [discriminate|reflexivity|exact Hm'].
  - destruct (merge_entries (a :: A) B) as [out'| |] eqn:Hm'; simpl in Hm;
      try discriminate.
    injection Hm as <-. constructor; [now apply IHB|].
    apply Forall_forall. intros z Hz.
    assert (Hba : ts_le b a) by now apply strcmp_gt_le.
    apply merge_entries_shape in Hm' as (B' & Hsub' & Hi & _).
    destruct (interleave_elem_of _ _ _ z Hi Hz) as [Hz'|Hz'].
    + apply elem_of_cons in Hz' as [->|Hz']; [assumption|].
      transitivity a; [assumption|now apply HaA].
    + apply HbB. eapply elem_of_sublist; [exact Hz'|exact Hsub'].
Qed.

(** X6: on two sorted inputs of well-formed entries, with or without
    entries in common, the merge runs to its end and what it writes is
    sorted by timestamp. *)
Theorem merge_entries_sorted (A B : list hist_entry) :
  Sorted ts_le A -> Sorted ts_le B ->
  Forall well_formed A -> Forall well_formed B ->
  exists out, merge_entries A B = Done out /\ Sorted ts_le out.
Proof.
  intros HsA HsB HwA HwB.
  destruct (merge_entries_done A B HwA HwB) as [out Hm].
  exists out. split; [assumption|]. apply StronglySorted_Sorted.
  apply (merge_entries_sorted_strong A B); [| |assumption];
    now apply Sorted_StronglySorted; [apply ts_le_trans|].
Qed.

Lemma merge_entries_sorted_witness :
  exists out, merge_entries [entry_x; entry_late] [entry_y; entry_late] = Done out /\
              Sorted ts_le out.
Proof.
  apply merge_entries_sorted.
  - repeat constructor. vm_compute. discriminate.
  - repeat constructor. vm_compute. discriminate.
  - repeat constructor.
  - repeat constructor.
Defined.

(** ** The bubble sort, for any comparison function *)

Section BubbleSortAny.
Context {A : Type} (compare : A -> A -> comparison).

Lemma bubble_pass_bound (k : nat) :
  forall (i : nat) (array : list A) (new_n : nat) (array' : list A) (m : nat),
    bubble_pass compare k i array new_n = (array', m) ->
    m = new_n \/ (i < m <= i + k)%nat.
Proof.
  induction k as [|k IH]; intros i array new_n array' m H; cbn [bubble_pass] in H.
  { injection H as _ <-. now left. }
  destruct (array !! i) as [x|]; [|injection H as _ <-; now left].
  destruct (array !! S i) as [y|]; [|injection H as _ <-; now left].
  destruct (compare x y); apply IH in H; lia.
Qed.

Lemma bubble_pass_swaps (k : nat) (array : list A) (new_n : nat) :
  swaps compare array (bubble_pass compare k 0 array new_n).1.
Proof.
  destruct array as [|x l].
  - destruct k; constructor.
  - pose proof (bubble_pass_bubble compare k [] x l new_n) as Hb.
    pose proof (bubble_swaps compare k x l 0 new_n) as Hs.
    cbn [length app] in Hb. rewrite Hb.
    now destruct (bubble compare k x l 0 new_n).
Qed.

Lemma bubble_loop_done (fuel : nat) :
  forall (n : nat) (array : list A),
    (n < fuel)%nat ->
    exists out, bubble_loop compare fuel array n = Done out /\ swaps compare array out.
Proof.
  induction fuel as [|fuel IH]; intros n array Hfuel; [lia|].
  cbn [bubble_loop].
  pose proof (bubble_pass_swaps (n - 1) array 1) as Hsw.
  destruct (bubble_pass compare (n - 1) 0 array 1) as [array' m] eqn:Hpass.
  apply bubble_pass_bound in Hpass. simpl in Hsw.
  destruct (1 <? m)%nat eqn:Hm.
  - apply Nat.ltb_lt in Hm. destruct (IH m array') as (out & Hout & Hsw'); [lia|].
    exists out. split; [assumption|]. now apply swaps_trans with array'.
  - now exists array'.
Qed.

Lemma bubble_sorted_keeps (l : list A) :
  forall (k : nat) (x : A) (i new_n : nat),
    Sorted (cmp_le compare) (x :: l) -> bubble compare k x l i new_n = (x :: l, new_n).
Proof.
  induction l as [|y l IH]; intros k x i new_n Hs; [now destruct k|].
  destruct k as [|k]; [reflexivity|]. cbn [bubble].
  apply Sorted_inv in Hs as [Hs Hxy]. apply HdRel_inv in Hxy.
  rewrite (IH k y (S i) new_n Hs).
  destruct (compare x y) eqn:Hc; [reflexivity..|]. now destruct Hxy.
Qed.

End BubbleSortAny.

(** X7: [bubble_sort] ends for every comparison function, be it
    inconsistent, and leaves in the array a permutation of what it held:
    each pass moves [n] down to the place of its last exchange. *)
Theorem bubble_sort_permutes {A : Type} (compare : A -> A -> comparison) (array : list A) :
  exists out, bubble_sort compare array (length array) = Done out /\
              Permutation array out.
Proof.
  destruct (bubble_loop_done compare (S (length array)) (length array) array)
    as (out & Hout & Hsw); [lia|].
  exists out. split; [exact Hout|]. now apply swaps_Permutation with compare.
Qed.


(** X8: an array that is already in order, no element asking for an exchange
    with its successor, comes back unchanged after a single pass. *)
Theorem bubble_sort_sorted_unchanged {A : Type} (compare : A -> A -> comparison)
    (array : list A) :
  Sorted (cmp_le compare) array ->
  bubble_sort compare array (length array) = Done array.
Proof.
  intros Hs. unfold bubble_sort. cbn [bubble_loop].
  destruct array as [|x l]; [reflexivity|].
  pose proof (bubble_pass_bubble compare (length (x :: l) - 1) [] x l 1) as Hb.
  cbn [length app] in Hb. cbn [length]. rewrite Hb.
  now rewrite bubble_sorted_keeps.
Qed.

Lemma bubble_sort_sorted_unchanged_witness :
  bubble_sort Nat.compare [1; 2; 2; 5]%nat 4 = Done [1; 2; 2; 5]%nat.
Proof.
  apply (bubble_sort_sorted_unchanged Nat.compare [1; 2; 2; 5]%nat).
  repeat constructor; vm_compute; discriminate.
Defined.

(** X9: for every comparison function that is a total preorder (an exchange
    is never asked for in both directions, and "no exchange" is transitive),
    [bubble_sort] returns a sorted permutation of its input, and it is
    stable: the elements of any class that the function never separates keep
    their order. *)
Theorem bubble_sort_generic {A : Type} (compare : A -> A -> comparison) (array : list A) :
  (forall x y, compare x y = Gt -> compare y x <> Gt) ->
  (forall x y z, compare x y <> Gt -> compare y z <> Gt -> compare x z <> Gt) ->
  exists out, bubble_sort compare array (length array) = Done out /\
              Sorted (cmp_le compare) out /\
              Permutation array out /\
              forall P : A -> bool,
                (forall x y, compare x y = Gt -> P x && P y = false) ->
                List.filter P out = List.filter P array.
Proof.
  intros Hgt Htrans.
  destruct (bubble_sort_sorts compare Hgt Htrans array) as (out & Hout & Hsw & Hs).
  exists out. split; [exact Hout|].
  split; [now apply StronglySorted_Sorted|].
  split; [now apply swaps_Permutation with compare|].
  intros P HP. symmetry. now apply swaps_filter with compare.
Qed.

Lemma bubble_sort_generic_witness :
  exists out, bubble_sort Nat.compare [3; 1; 2]%nat 3 = Done out /\
              Sorted (cmp_le Nat.compare) out /\
              Permutation [3; 1; 2]%nat out /\
              forall P : nat -> bool,
                (forall x y, Nat.compare x y = Gt -> P x && P y = false) ->
                List.filter P out = List.filter P [3; 1; 2]%nat.
Proof.
  apply (bubble_sort_generic Nat.compare [3; 1; 2]%nat).
  - intros x y H. apply Nat.compare_gt_iff in H.
    intros H'. apply Nat.compare_gt_iff in H'. lia.
  - intros x y z H1 H2. apply Nat.compare_le_iff in H1, H2.
    apply Nat.compare_le_iff. lia.
Defined.

(** ** Reading records and loading logs, in general *)

Lemma length_append (a b : string) :
  String.length (a +:+ b) = (String.length a + String.length b)%nat.
Proof. induction a as [|c a IH]; [reflexivity|]. rewrite append_cons. simpl. now rewrite IH. Qed.

Lemma body_lines (ls : list string) : Forall is_line ls -> map c_str ls = ls.
Proof.
  induction 1 as [|l ls Hl _ IH]; [reflexivity|]. simpl.
  now rewrite c_str_line, IH.
Qed.

Lemma entry_text_conforming (e : hist_entry) :
  conforming e -> entry_text e = record_text (type e) (timestamp e) (lines e).
Proof.
  intros (_ & Hkt & _ & Htt & Hn & Hfl & Hls).
  destruct (count_field_spec (length (lines e) - 1)) as (Hct & _ & _); [lia|].
  unfold entry_text, record_text, header, body.
  rewrite Hfl, !c_str_text, body_lines by assumption.
  now rewrite !append_assoc.
Qed.

Lemma read_entry_conforming (e : hist_entry) (rest : FILE_in) :
  conforming e -> read_entry (entry_text e +:+ rest) = Entry e rest.
Proof.
  intros He. rewrite entry_text_conforming by assumption.
  destruct He as (Hk & Hkt & Ht & Htt & Hn & Hfl & Hls).
  rewrite read_entry_record by assumption.
  destruct e as [ty ts fl ls]. simpl in *. now subst fl.
Qed.

Lemma entry_text_length (e : hist_entry) : (3 <= String.length (entry_text e))%nat.
Proof. unfold entry_text. rewrite !length_append. simpl. lia. Qed.

Lemma read_hist_loop_log (es : list hist_entry) :
  forall (fuel : nat) (tail : FILE_in) (warned : bool) (acc : list entry_ptr),
    Forall conforming es -> read_entry tail = Null warned ->
    (String.length (log_text es +:+ tail) < fuel)%nat ->
    read_hist_loop fuel (log_text es +:+ tail) acc = Done (acc ++ map Lined es).
Proof.
  induction es as [|e es IH]; intros fuel tail warned acc Hes Htail Hfuel.
  - destruct fuel as [|fuel]; [lia|]. cbn [read_hist_loop].
    change (log_text [] +:+ tail) with tail. rewrite Htail. cbn [map]. now rewrite app_nil_r.
  - apply Forall_cons in Hes as [He Hes].
    destruct fuel as [|fuel]; [lia|]. cbn [read_hist_loop].
    change (log_text (e :: es)) with (entry_text e +:+ log_text es) in *.
    rewrite append_assoc in *. rewrite read_entry_conforming by assumption.
    unfold insert_hist_entry. rewrite (IH fuel tail warned); try assumption.
    + cbn [map]. now rewrite <- app_assoc.
    + rewrite length_append in Hfuel. pose proof (entry_text_length e). lia.
Qed.

Lemma read_hist_log_tail (es : list hist_entry) (tail : FILE_in) (warned : bool) :
  Forall conforming es -> read_entry tail = Null warned ->
  read_hist (log_text es +:+ tail) =
  (let* sorted := bubble_sort cmp_entries es (length es) in
   Done (match sorted with [] => None | _ => Some (map Lined sorted) end)).
Proof.
  intros Hes Htail. unfold read_hist.
  rewrite (read_hist_loop_log es _ tail warned []); [|assumption..|lia].
  cbn [obind app].
  destruct (bubble_sort_entries es) as (out & Hout & _).
  rewrite (bubble_sort_lined es out Hout), Hout. cbn [obind].
  now destruct out.
Qed.

Lemma read_entry_eof : read_entry "" = Null false.
Proof. reflexivity. Qed.

(** X10: a log file that holds records of the fixed format and nothing else
    is loaded whole: [read_hist] returns all its entries, sorted by
    timestamp, those of equal timestamp in the order of the file. *)
Theorem read_hist_log (es : list hist_entry) :
  Forall conforming es -> es <> [] ->
  exists out, read_hist (log_text es) = Done (Some (map Lined out)) /\
              Permutation es out /\ Sorted ts_le out /\
              forall t, List.filter (same_ts t) out = List.filter (same_ts t) es.
Proof.
  intros Hes Hne.
  rewrite <- (append_nil_r (log_text es)).
  rewrite (read_hist_log_tail es "" false) by (assumption || reflexivity).
  destruct (bubble_sort_entries es) as (out & -> & Hs & Hp & Hst). cbn [obind].
  exists out. destruct out as [|o out].
  - apply Permutation_sym, Permutation_nil in Hp. contradiction.
  - auto.
Qed.

Lemma read_hist_log_witness :
  exists out, read_hist (log_text [good_entry]) = Done (Some (map Lined out)) /\
              Permutation [good_entry] out /\ Sorted ts_le out /\
              forall t, List.filter (same_ts t) out = List.filter (same_ts t) [good_entry].
Proof.
  apply read_hist_log.
  - repeat constructor; try reflexivity; simpl; try lia.
    exists "hello". split; reflexivity.
  - discriminate.
Defined.

Lemma write_entries_log (es : list hist_entry) (out : FILE_out) :
  write_entries es out = out +:+ log_text es.
Proof.
  unfold write_entries. revert out. induction es as [|e es IH]; intros out; simpl.
  - now rewrite append_nil_r.
  - rewrite IH, write_entry_entry_text. apply append_assoc.
Qed.




(** X12: [read_hist] ends its loop at the first NULL of [read_entry], so
    whatever follows the last record that can be read (a blank line, a
    truncated record, stray bytes) is dropped without a trace in the result:
    the log loads as if it ended there. *)
Theorem read_hist_ignores_tail (es : list hist_entry) (tail : FILE_in) (warned : bool) :
  Forall conforming es -> read_entry tail = Null warned ->
  read_hist (log_text es +:+ tail) = read_hist (log_text es).
Proof.
  intros Hes Htail.
  rewrite (read_hist_log_tail es tail warned) by assumption.
  rewrite <- (append_nil_r (log_text es)).
  now rewrite (read_hist_log_tail es "" false).
Qed.

Lemma read_hist_ignores_tail_witness :
  read_hist (log_text [good_entry] +:+ nl +:+ log_text [good_entry]) =
  read_hist (log_text [good_entry]).
Proof.
  apply (read_hist_ignores_tail [good_entry] (nl +:+ log_text [good_entry]) false).
  - repeat constructor; try reflexivity; simpl; try lia.
    exists "hello". split; reflexivity.
  - reflexivity.
Defined.

(** X13: with fewer than two bytes left in the stream, [read_entry] returns
    NULL without a warning, which [read_hist] takes as the end of the
    log. *)
Theorem read_entry_short_input (fh : FILE_in) :
  (String.length fh < 2)%nat -> read_entry fh = Null false.
Proof.
  intros Hlen. destruct fh as [|c [|c' fh]]; [reflexivity| |simpl in Hlen; lia].
  unfold read_entry, fgets. cbn [Nat.pred fgets_bytes].
  destruct (Ascii.eqb c LF); unfold strlen; simpl;
    destruct (Ascii.eqb c NUL); reflexivity.
Qed.

Lemma read_entry_short_input_witness : read_entry "M" = Null false.
Proof. apply read_entry_short_input. simpl. lia. Defined.

(** X14: a pointer that [read_entry] returns, when it is not NULL, is to an
    entry with a kind of two bytes, read from at least two bytes of the
    stream; the entry holds [atoi(follow_lines) + 1] lines or, when that
    count is below -1, has no line array at all. *)
Theorem read_entry_entry (fh : FILE_in) (entry : entry_ptr) (rest : FILE_in) :
  returned (read_entry fh) = Some (entry, rest) ->
  read_back entry /\ (String.length rest + 2 <= String.length fh)%nat.
Proof.
  destruct (read_entry fh) as [e rest'|warned|ty ts fl rest'] eqn:H; cbn [returned];
    [|discriminate|]; intros [= <- <-]; split.
  - split; [now apply read_entry_kind in H|now apply read_entry_well_formed in H].
  - revert H. unfold read_entry, fgets.
    destruct (fgets_bytes (Nat.pred 3) fh) as [ty fh1] eqn:H1.
    destruct (negb (strlen ty =? 2)%nat) eqn:Hlen; [discriminate|].
    apply negb_false_iff, Nat.eqb_eq in Hlen.
    destruct (fgets_bytes (Nat.pred 19) (fgetc fh1)) as [ts fh2] eqn:H2.
    destruct (fgets_bytes (Nat.pred 4) (fgetc fh2)) as [fl fh3] eqn:H3.
    destruct (atoi fl <? -1); [discriminate|].
    destruct (read_lines _ (fgetc fh3)) as [[ls rest'']|] eqn:H4; [|discriminate].
    intros [= _ <-].
    apply fgets_bytes_length in H1, H2, H3. apply read_lines_length in H4.
    pose proof (fgetc_length fh1). pose proof (fgetc_length fh2).
    pose proof (fgetc_length fh3). pose proof (c_str_length ty).
    unfold strlen in Hlen. lia.
  - now apply read_entry_unlined in H.
  - revert H. unfold read_entry, fgets.
    destruct (fgets_bytes (Nat.pred 3) fh) as [ty' fh1] eqn:H1.
    destruct (negb (strlen ty' =? 2)%nat) eqn:Hlen; [discriminate|].
    apply negb_false_iff, Nat.eqb_eq in Hlen.
    destruct (fgets_bytes (Nat.pred 19) (fgetc fh1)) as [ts' fh2] eqn:H2.
    destruct (fgets_bytes (Nat.pred 4) (fgetc fh2)) as [fl' fh3] eqn:H3.
    destruct (atoi fl' <? -1);
      [|destruct (read_lines _ (fgetc fh3)) as [[ls rest'']|]; discriminate].
    intros [= _ _ _ <-].
    apply fgets_bytes_length in H1, H2, H3.
    pose proof (fgetc_length fh1). pose proof (fgetc_length fh2).
    pose proof (fgetc_length fh3). pose proof (c_str_length ty').
    unfold strlen in Hlen. lia.
Qed.

Lemma read_entry_entry_witness :
  read_back (unlined_entry) /\
  (String.length good_record + 2 <= String.length (unlined_record +:+ good_record))%nat.
Proof. apply (read_entry_entry (unlined_record +:+ good_record)). reflexivity. Defined.

(** X15: the array that [read_hist] returns is never empty (with no entry
    read the result is the NULL pointer) and its timestamps stand in lexical
    order; each of its entries has a kind of two bytes and either the
    number of lines its count announces or, with a count below -1, no line
    array. *)
Theorem read_hist_result (fh : FILE_in) (entries : list entry_ptr) :
  read_hist fh = Done (Some entries) ->
  entries <> [] /\ Forall read_back entries /\ StronglySorted stamp_le entries.
Proof.
  intros (Hne & Hwf & Hs)%read_hist_loaded_ptrs.
  split; [assumption|]. split; [assumption|]. now apply sorted_stamps.
Qed.

Lemma read_hist_result_witness :
  [unlined_entry; Lined good_entry] <> [] /\
  Forall read_back [unlined_entry; Lined good_entry] /\
  StronglySorted stamp_le [unlined_entry; Lined good_entry].
Proof. apply (read_hist_result (good_record +:+ unlined_record)). reflexivity. Defined.

(** ** Files *)

Lemma fopen_w_spec (fs fs' : filesystem) (p : path) :
  fopen_w fs p = Some fs' ->
  (exists ino, lookup_path fs' p = Some (File ino "")) /\
  (forall q, q <> p -> lookup_path fs' q = lookup_path fs q) /\
  (forall k, is_Some (dirs fs' !! k) <-> is_Some (dirs fs !! k)).
Proof.
  destruct p as [pd pn]. unfold fopen_w, lookup_path. cbn [fst snd].
  destruct (dirs fs !! pd) as [d|] eqn:Hd; [|discriminate].
  assert (Hgen : forall nd next,
    (exists ino, nd = File ino "") ->
    let fs0 := mk_filesystem (<[pd := <[pn := nd]> d]> (dirs fs)) next in
    (exists ino, match dirs fs0 !! pd with
                 | None => None | Some d0 => d0 !! pn end = Some (File ino "")) /\
    (forall q : path, q <> (pd, pn) ->
       match dirs fs0 !! q.1 with None => None | Some d0 => d0 !! q.2 end =
       match dirs fs !! q.1 with None => None | Some d0 => d0 !! q.2 end) /\
    (forall k, is_Some (dirs fs0 !! k) <-> is_Some (dirs fs !! k))).
  { intros nd next [ino ->]. simpl. split; [|split].
    - exists ino. now rewrite !lookup_insert_eq.
    - intros [qd qn] Hq. simpl. destruct (decide (pd = qd)) as [<-|Hne].
      + rewrite lookup_insert_eq, Hd. rewrite lookup_insert_ne; [reflexivity|congruence].
      + now rewrite lookup_insert_ne.
    - intros k. rewrite lookup_insert_is_Some'. split; [|now right].
      intros [<-|H]; [now rewrite Hd|assumption]. }
  destruct (d !! pn) as [[ino data|ino|t ino|]|]; try discriminate;
    intros [= <-]; apply Hgen; eauto.
Qed.

Lemma fclose_w_spec (fs : filesystem) (p : path) (out_stream : FILE_out) :
  (forall ino data, lookup_path fs p = Some (File ino data) ->
     lookup_path (fclose_w fs p out_stream) p = Some (File ino out_stream)) /\
  (forall q, q <> p -> lookup_path (fclose_w fs p out_stream) q = lookup_path fs q) /\
  (forall k, is_Some (dirs (fclose_w fs p out_stream) !! k) <-> is_Some (dirs fs !! k)).
Proof.
  destruct p as [pd pn]. unfold fclose_w, lookup_path. cbn [fst snd dirs].
  split; [|split].
  - intros ino data H. rewrite lookup_alter_eq.
    destruct (dirs fs !! pd) as [d|]; [|discriminate]. simpl.
    now rewrite lookup_alter_eq, H.
  - intros [qd qn] Hq. simpl. destruct (decide (pd = qd)) as [<-|Hne].
    + rewrite lookup_alter_eq. destruct (dirs fs !! pd) as [d|]; [|reflexivity]. simpl.
      rewrite lookup_alter_ne; [reflexivity|congruence].
    + now rewrite lookup_alter_ne.
  - intros k. apply lookup_alter_is_Some.
Qed.

Lemma fopen_r_lookup (fs fs' : filesystem) (p q : path) :
  lookup_path fs' p = lookup_path fs q -> fopen_r fs' p = fopen_r fs q.
Proof. unfold fopen_r. now intros ->. Qed.

Lemma read_hist_null (fh : FILE_in) (warned : bool) :
  read_entry fh = Null warned -> read_hist fh = Done None.
Proof.
  intros H. unfold read_hist. now rewrite (read_hist_loop_null _ fh [] warned).
Qed.

(** What a successful call of [merge_files] amounts to. *)
Lemma merge_files_inv (fs fs' : filesystem) (file1 file2 fileO : path) (status : Z) :
  merge_files fs file1 file2 fileO = Done (fs', status) ->
  (status = 0 /\ fs' = fs) \/
  (status = 1 /\
   exists fh1 fh2 hist1 hist2 written fs1,
     fopen_r fs file1 = Some fh1 /\ read_hist fh1 = Done (Some (map Lined hist1)) /\
     fopen_r fs file2 = Some fh2 /\ read_hist fh2 = Done (Some (map Lined hist2)) /\
     merge_entries hist1 hist2 = Done written /\
     fopen_w fs fileO = Some fs1 /\
     fs' = fclose_w fs1 fileO (write_entries written "")).
Proof.
  unfold merge_files.
  destruct (fopen_r fs file1) as [fh1|]; [|intros [= <- <-]; now left].
  destruct (read_hist fh1) as [[hist1|]| |] eqn:H1; cbn [obind]; try discriminate;
    [|intros [= <- <-]; now left].
  destruct (fopen_r fs file2) as [fh2|];
    [|destruct (free_hist_entries hist1); cbn [obind]; try discriminate;
      intros [= <- <-]; now left].
  destruct (read_hist fh2) as [[hist2|]| |] eqn:H2; cbn [obind]; try discriminate;
    [|destruct (free_hist_entries hist1); cbn [obind]; try discriminate;
      intros [= <- <-]; now left].
  destruct (fopen_w fs fileO) as [fs1|] eqn:Hw;
    [|destruct (free_hist_entries hist1); cbn [obind]; try discriminate;
      destruct (free_hist_entries hist2); cbn [obind]; try discriminate;
      intros [= <- <-]; now left].
  destruct (lined hist1) as [entries_a|] eqn:Ha; [|discriminate].
  destruct (lined hist2) as [entries_b|] eqn:Hb; [|discriminate].
  apply lined_Some in Ha, Hb. subst hist1 hist2.
  destruct (merge_entries entries_a entries_b) as [written| |] eqn:Hm; cbn [obind];
    try discriminate.
  rewrite !free_hist_entries_lined. cbn [obind].
  intros [= <- <-]. right. split; [reflexivity|].
  exists fh1, fh2, entries_a, entries_b, written, fs1. auto 10.
Qed.

(** X16: [merge_files] changes at most the file [fileO]: every other path
    names the same node afterwards, the two inputs included unless one of
    them is the output; and when it returns 0 nothing at all has changed. *)
Theorem merge_files_frame (fs fs' : filesystem) (file1 file2 fileO : path) (status : Z) :
  merge_files fs file1 file2 fileO = Done (fs', status) ->
  (status = 0 \/ status = 1) /\
  (status = 0 -> fs' = fs) /\
  (forall q, q <> fileO -> lookup_path fs' q = lookup_path fs q).
Proof.
  intros [(-> & ->)|(-> & fh1 & fh2 & h1 & h2 & written & fs1 & _ & _ & _ & _ & _ & Hw & ->)]%merge_files_inv.
  - auto.
  - split; [now right|]. split; [discriminate|]. intros q Hq.
    destruct (fclose_w_spec fs1 fileO (write_entries written "")) as (_ & Hother & _).
    rewrite Hother by assumption.
    apply fopen_w_spec in Hw as (_ & Hother' & _). now apply Hother'.
Qed.

Lemma merge_files_frame_witness :
  exists fs',
    merge_files truncated_fs ("logs", "one.log") ("logs", "two.log") ("logs", "out.log")
      = Done (fs', 1) /\
    lookup_path fs' ("logs", "two.log") = lookup_path truncated_fs ("logs", "two.log").
Proof.
  destruct (merge_files truncated_fs ("logs", "one.log") ("logs", "two.log")
              ("logs", "out.log")) as [[fs' status]| |] eqn:Hm.
  - exists fs'. pose proof (merge_files_frame _ _ _ _ _ _ Hm) as (_ & _ & Hframe).
    split; [|apply Hframe; discriminate].
    vm_compute in Hm. now injection Hm as <- <-.
  - vm_compute in Hm. discriminate.
  - vm_compute in Hm. discriminate.
Defined.

(** X17: when [merge_files] returns 1, the output file holds the merge of
    the two histories as they were loaded from the inputs before the output
    was opened; this is so too when the output is one of the inputs (the
    in-place mode). *)
Theorem merge_files_output (fs fs' : filesystem) (file1 file2 fileO : path) :
  merge_files fs file1 file2 fileO = Done (fs', 1) ->
  exists fh1 fh2 hist1 hist2 written,
    fopen_r fs file1 = Some fh1 /\ read_hist fh1 = Done (Some (map Lined hist1)) /\
    fopen_r fs file2 = Some fh2 /\ read_hist fh2 = Done (Some (map Lined hist2)) /\
    merge_entries hist1 hist2 = Done written /\
    fopen_r fs' fileO = Some (log_text written).
Proof.
  intros [(? & _)|(_ & fh1 & fh2 & h1 & h2 & written & fs1 & Hf1 & Hr1 & Hf2 & Hr2 & Hm & Hw & ->)]%merge_files_inv;
    [discriminate|].
  exists fh1, fh2, h1, h2, written. repeat (split; [assumption|]).
  apply fopen_w_spec in Hw as ([ino Hino] & _ & _).
  destruct (fclose_w_spec fs1 fileO (write_entries written "")) as (Hsame & _ & _).
  unfold fopen_r. rewrite (Hsame ino "" Hino). now rewrite write_entries_log.
Qed.

Lemma merge_files_output_witness :
  exists fh1 fh2 hist1 hist2 written,
    fopen_r truncated_fs ("logs", "two.log") = Some fh1 /\
    read_hist fh1 = Done (Some (map Lined hist1)) /\
    fopen_r truncated_fs ("logs", "two.log") = Some fh2 /\
    read_hist fh2 = Done (Some (map Lined hist2)) /\
    merge_entries hist1 hist2 = Done written /\
    fopen_r (fclose_w truncated_fs ("logs", "two.log") log_b) ("logs", "two.log")
      = Some (log_text written).
Proof.
  apply (merge_files_output truncated_fs _ ("logs", "two.log") ("logs", "two.log")
           ("logs", "two.log")).
  vm_compute. reflexivity.
Defined.

(** X18: a first input from which no record can be read (an empty file, or
    one that starts with a blank line or a truncated record) makes
    [merge_files] return 0 and write nothing, whatever the second input
    holds; so does such a second input next to a first one that loads, each
    of its entries with a line array. *)
Theorem merge_files_unreadable (fs : filesystem) (file1 file2 fileO : path)
    (fh1 fh2 : FILE_in) (warned : bool) :
  fopen_r fs file1 = Some fh1 -> fopen_r fs file2 = Some fh2 ->
  read_entry fh1 = Null warned \/
  ((exists hist1, read_hist fh1 = Done (Some (map Lined hist1))) /\
   read_entry fh2 = Null warned) ->
  merge_files fs file1 file2 fileO = Done (fs, 0).
Proof.
  intros Hf1 Hf2 [H1|[[hist1 H1] H2]]; unfold merge_files; rewrite Hf1.
  - now rewrite (read_hist_null fh1 warned).
  - rewrite H1. cbn [obind]. rewrite Hf2, (read_hist_null fh2 warned) by assumption.
    cbn [obind]. now rewrite free_hist_entries_lined.
Qed.

Lemma merge_files_unreadable_witness :
  merge_files empty_log_fs ("logs", "empty.log") ("logs", "full.log") ("logs", "out.log")
  = Done (empty_log_fs, 0).
Proof.
  apply (merge_files_unreadable empty_log_fs _ _ _ "" good_record false).
  - reflexivity.
  - reflexivity.
  - left. reflexivity.
Defined.


Lemma fopen_w_file (fs : filesystem) (p : path) (ino : Z) (data : string) :
  lookup_path fs p = Some (File ino data) ->
  exists fs1, fopen_w fs p = Some fs1 /\ lookup_path fs1 p = Some (File ino "").
Proof.
  destruct p as [pd pn]. unfold lookup_path, fopen_w. cbn [fst snd].
  destruct (dirs fs !! pd) as [d|]; [|discriminate]. intros ->.
  eexists. split; [reflexivity|]. simpl. now rewrite !lookup_insert_eq.
Qed.



(** ** Copying a file *)

Lemma substring_all (s : string) : substring 0 (String.length s) s = s.
Proof. induction s as [|c s IH]; [reflexivity|]. simpl. now rewrite IH. Qed.

Lemma sendfile_all (data : string) :
  (Z.of_nat (String.length data) <= 2147479552) ->
  sendfile data (to_ulong (to_int (Z.of_nat (String.length data)))) = Some data.
Proof.
  intros Hlen. unfold sendfile, to_ulong, to_int.
  set (n := Z.of_nat (String.length data)) in *.
  assert (Hn : 0 <= n) by (unfold n; lia).
  replace ((n + 2 ^ 31) mod 2 ^ 32 - 2 ^ 31) with n
    by (rewrite Z.mod_small; lia).
  rewrite Z.mod_small by lia.
  destruct (Z.leb_spec (2 ^ 63) n) as [|_]; [lia|].
  rewrite Z.min_l by assumption.
  unfold n. rewrite Nat2Z.id. now rewrite substring_all.
Qed.

Lemma to_int_range (x : Z) : - 2 ^ 31 <= to_int x < 2 ^ 31.
Proof.
  unfold to_int. pose proof (Z.mod_pos_bound (x + 2 ^ 31) (2 ^ 32) ltac:(lia)). lia.
Qed.

(** What [sendfile] does with a size that has gone through an [int], on a
    source that has just been emptied. *)
Lemma sendfile_empty (size : Z) :
  sendfile "" (to_ulong (to_int size)) = if to_int size <? 0 then None else Some "".
Proof.
  pose proof (to_int_range size) as Hr. unfold sendfile, to_ulong.
  destruct (Z.ltb_spec (to_int size) 0) as [Hneg|Hpos].
  - replace (to_int size mod 2 ^ 64) with (to_int size + 2 ^ 64)
      by (apply Z.mod_unique with (-1); lia).
    destruct (Z.leb_spec (2 ^ 63) (to_int size + 2 ^ 64)) as [_|]; [reflexivity|lia].
  - rewrite Z.mod_small by lia.
    destruct (Z.leb_spec (2 ^ 63) (to_int size)) as [|_]; [lia|].
    now destruct (Z.to_nat _).
Qed.

Lemma inode_fits_int (ino : Z) : 0 <= ino < 2 ^ 31 -> to_ulong (to_int ino) = ino.
Proof.
  intros H. unfold to_ulong, to_int.
  replace ((ino + 2 ^ 31) mod 2 ^ 32 - 2 ^ 31) with ino by (rewrite Z.mod_small; lia).
  apply Z.mod_small. lia.
Qed.

Lemma inode_exceeds_int (ino : Z) :
  2 ^ 31 <= ino < 2 ^ 64 - 2 ^ 31 -> to_ulong (to_int ino) <> ino.
Proof.
  intros H. unfold to_ulong, to_int.
  pose proof (Z.mod_pos_bound (ino + 2 ^ 31) (2 ^ 32) ltac:(lia)) as Hx.
  set (x := (ino + 2 ^ 31) mod 2 ^ 32) in *.
  destruct (Z_lt_le_dec (x - 2 ^ 31) 0) as [Hneg|Hpos].
  - replace ((x - 2 ^ 31) mod 2 ^ 64) with (x - 2 ^ 31 + 2 ^ 64); [lia|].
    apply Z.mod_unique with (-1); lia.
  - rewrite Z.mod_small by lia. lia.
Qed.

Lemma copy_fs_frame (fs fs' : filesystem) (source dest : path) (status : Z) :
  copy fs source dest = (fs', status) ->
  (status = 0 \/ status = 1) /\ fs_frame fs fs' dest.
Proof.
  assert (Hrefl : fs_frame fs fs dest) by (split; intros; reflexivity).
  unfold copy.
  destruct (stat fs source) as [src|]; [|intros [= <- <-]; auto].
  destruct (match stat fs dest with Some dst => _ | None => false end);
    [intros [= <- <-]; auto|].
  destruct (fopen_w fs dest) as [fs1|] eqn:Hw; [|intros [= <- <-]; auto].
  apply fopen_w_spec in Hw as (_ & Hother & Hkeys).
  destruct (lookup_path fs1 source) as [[ino data|ino|t ino|]|];
    try (intros [= <- <-]; split; [auto|split; assumption]).
  destruct (sendfile data _) as [sent|];
    [|intros [= <- <-]; split; [auto|split; assumption]].
  intros [= <- <-]. split; [auto|].
  destruct (fclose_w_spec fs1 dest sent) as (_ & Hother' & Hkeys').
  split.
  - intros q Hq. rewrite Hother' by assumption. now apply Hother.
  - intros k. rewrite Hkeys'. apply Hkeys.
Qed.

(** X20: [copy] changes at most the file [dest]; every other path, the
    source included when it is another path, names the same node afterwards,
    and the result is 0 or 1. *)
Theorem copy_frame (fs fs' : filesystem) (source dest : path) (status : Z) :
  copy fs source dest = (fs', status) ->
  (status = 0 \/ status = 1) /\
  forall q, q <> dest -> lookup_path fs' q = lookup_path fs q.
Proof.
  intros (Hst & Hother & _)%copy_fs_frame. auto.
Qed.

Lemma copy_frame_witness :
  (1 = 0 \/ 1 = 1) /\
  forall q, q <> ("outDir", "a.log") ->
    lookup_path (copy scenario ("dirA", "a.log") ("outDir", "a.log")).1 q
    = lookup_path scenario q.
Proof.
  apply (copy_frame scenario _ ("dirA", "a.log") ("outDir", "a.log") 1).
  vm_compute. reflexivity.
Defined.

Lemma copy_to_other (fs : filesystem) (source dest : path) (ino : Z) (data : string) :
  lookup_path fs source = Some (File ino data) ->
  Z.of_nat (String.length data) <= 2147479552 ->
  source <> dest ->
  is_Some (dirs fs !! dest.1) ->
  (forall nd, lookup_path fs dest = Some nd ->
     to_ulong (to_int ino) <> st_ino nd /\ exists i d, nd = File i d) ->
  exists fs', copy fs source dest = (fs', 1) /\
    fopen_r fs' dest = Some data /\
    lookup_path fs' source = Some (File ino data).
Proof.
  intros Hsrc Hlen Hne [d Hd] Hdest.
  assert (Hw : exists fs1 i, fopen_w fs dest = Some fs1 /\
                             lookup_path fs1 dest = Some (File i "")).
  { destruct (lookup_path fs dest) as [nd|] eqn:Hl.
    - destruct (Hdest nd eq_refl) as (_ & i & d0 & ->).
      destruct (fopen_w_file fs dest i d0 Hl) as (fs1 & ? & ?). eauto.
    - destruct dest as [dd dn]. unfold lookup_path, fopen_w in *. cbn [fst snd] in *.
      rewrite Hd in *. rewrite Hl. eexists _, _. split; [reflexivity|].
      simpl. now rewrite !lookup_insert_eq. }
  destruct Hw as (fs1 & i & Hw & Hfile1).
  pose proof Hw as Hspec. apply fopen_w_spec in Hspec as (_ & Hother & _).
  assert (Hsrc1 : lookup_path fs1 source = Some (File ino data)).
  { now rewrite Hother. }
  destruct (fclose_w_spec fs1 dest data) as (Hsame & Hother' & _).
  exists (fclose_w fs1 dest data). split; [|split].
  - unfold copy, stat. rewrite Hsrc. cbn [st_ino st_size].
    assert (Hdiff : match match lookup_path fs dest with
                          | Some Dangling => None
                          | r => r
                          end with
                    | Some dst => to_ulong (to_int ino) =? st_ino dst
                    | None => false end = false).
    { destruct (lookup_path fs dest) as [nd|]; [|reflexivity].
      destruct (Hdest nd eq_refl) as (Hino & i0 & d0 & ->).
      now apply Z.eqb_neq. }
    rewrite Hdiff, Hw, Hsrc1. now rewrite sendfile_all.
  - unfold fopen_r. now rewrite (Hsame i "" Hfile1).
  - now rewrite Hother'.
Qed.

(** X21: copying a regular file of at most 0x7ffff000 bytes to another path
    whose directory exists, and which names nothing or a file with an inode
    number that [copy] does not take for the one of the source, returns 1
    and leaves at [dest] the bytes of the source. *)
Theorem copy_copies (fs : filesystem) (source dest : path) (ino : Z) (data : string) :
  lookup_path fs source = Some (File ino data) ->
  Z.of_nat (String.length data) <= 2147479552 ->
  source <> dest ->
  is_Some (dirs fs !! dest.1) ->
  (forall nd, lookup_path fs dest = Some nd ->
     to_ulong (to_int ino) <> st_ino nd /\ exists i d, nd = File i d) ->
  exists fs', copy fs source dest = (fs', 1) /\
    fopen_r fs' dest = Some data /\
    lookup_path fs' source = Some (File ino data).
Proof. apply copy_to_other. Qed.

Lemma copy_copies_witness :
  exists fs', copy scenario ("dirA", "a.log") ("outDir", "a.log") = (fs', 1) /\
    fopen_r fs' ("outDir", "a.log") = Some log_a /\
    lookup_path fs' ("dirA", "a.log") = Some (File 11 log_a).
Proof.
  apply (copy_copies scenario ("dirA", "a.log") ("outDir", "a.log") 11 log_a).
  - reflexivity.
  - vm_compute. discriminate.
  - discriminate.
  - exists ∅. reflexivity.
  - intros nd H. vm_compute in H. discriminate.
Defined.

(** X22: copying a file onto itself, its inode number fitting an [int],
    does nothing and returns 1. *)
Theorem copy_same_file (fs : filesystem) (file : path) (nd : node) :
  lookup_path fs file = Some nd -> 0 <= st_ino nd < 2 ^ 31 ->
  copy fs file file = (fs, 1).
Proof.
  intros Hfile Hino. unfold copy, stat. rewrite Hfile.
  destruct nd; try (rewrite inode_fits_int by assumption; now rewrite Z.eqb_refl).
  simpl in Hino. lia.
Qed.

Lemma copy_same_file_witness :
  copy scenario ("dirA", "a.log") ("dirA", "a.log") = (scenario, 1).
Proof.
  apply (copy_same_file scenario ("dirA", "a.log") (File 11 log_a)).
  - reflexivity.
  - simpl. lia.
Defined.

(** X23: with [ino_t] of 64 bits, copying a regular file onto itself when
    its inode number is 2^31 or more (and below 2^64 - 2^31) is not taken for
    the no-op it should be: the number was cut to an [int], the comparison
    fails, and the file is opened for writing and so emptied.  [copy] then
    returns 1, [sendfile] finding nothing left to send; or 0 when the size,
    cut to an [int] as well, has become negative, which [sendfile]
    refuses. *)
Theorem copy_same_file_large_inode (fs : filesystem) (file : path) (ino : Z)
    (data : string) :
  lookup_path fs file = Some (File ino data) ->
  2 ^ 31 <= ino < 2 ^ 64 - 2 ^ 31 ->
  exists fs',
    copy fs file file
    = (fs', if to_int (Z.of_nat (String.length data)) <? 0 then 0 else 1) /\
    lookup_path fs' file = Some (File ino "").
Proof.
  intros Hfile Hino.
  destruct (fopen_w_file fs file ino data Hfile) as (fs1 & Hw & Hfile1).
  destruct (fclose_w_spec fs1 file "") as (Hsame & _ & _).
  unfold copy, stat. rewrite Hfile. cbn [st_ino st_size].
  apply inode_exceeds_int, Z.eqb_neq in Hino. rewrite Hino, Hw, Hfile1.
  rewrite sendfile_empty.
  destruct (to_int (Z.of_nat (String.length data)) <? 0).
  - now exists fs1.
  - exists (fclose_w fs1 file ""). split; [reflexivity|]. now apply (Hsame ino "").
Qed.

Lemma copy_same_file_large_inode_witness :
  exists fs', copy large_inode_fs ("logs", "big.log") ("logs", "big.log") = (fs', 1) /\
              lookup_path fs' ("logs", "big.log") = Some (File 4294967424 "").
Proof.
  apply (copy_same_file_large_inode large_inode_fs ("logs", "big.log") 4294967424 good_record).
  - reflexivity.
  - lia.
Defined.

(** ** Directories *)

Lemma fs_frame_refl (fs : filesystem) (p : path) : fs_frame fs fs p.
Proof. split; intros; reflexivity. Qed.

Lemma merge_files_fs_frame (fs fs' : filesystem) (file1 file2 fileO : path) (status : Z) :
  merge_files fs file1 file2 fileO = Done (fs', status) -> fs_frame fs fs' fileO.
Proof.
  intros [(_ & ->)|(_ & fh1 & fh2 & h1 & h2 & written & fs1 & _ & _ & _ & _ & _ & Hw & ->)]%merge_files_inv;
    [apply fs_frame_refl|].
  apply fopen_w_spec in Hw as (_ & Hother & Hkeys).
  destruct (fclose_w_spec fs1 fileO (write_entries written "")) as (_ & Hother' & Hkeys').
  split.
  - intros q Hq. rewrite Hother' by assumption. now apply Hother.
  - intros k. rewrite Hkeys'. apply Hkeys.
Qed.

Lemma merge_dirs_step1_frame (dir1 dir2 dirO : string) (file : dirent)
    (fs fs' : filesystem) (status status' : Z) :
  merge_dirs_step1 dir1 dir2 dirO file (fs, status) = Done (fs', status') ->
  fs_frame fs fs' (dirO, d_name file) /\ (skipped file = true -> fs' = fs).
Proof.
  unfold merge_dirs_step1. destruct (skipped file).
  { intros [= <- <-]. split; [apply fs_frame_refl|reflexivity]. }
  destruct (access fs (dir2, d_name file)).
  - destruct (merge_files fs _ _ _) as [[fs1 st1]| |] eqn:Hm; simpl; try discriminate.
    intros [= <- <-]. split; [|discriminate]. now apply merge_files_fs_frame in Hm.
  - destruct (copy fs _ _) as [fs1 st1] eqn:Hc. simpl. intros [= <- <-].
    split; [|discriminate]. now apply copy_fs_frame in Hc as [_ ?].
Qed.

Lemma merge_dirs_step2_frame (dir1 dir2 dirO : string) (file : dirent)
    (fs fs' : filesystem) (status status' : Z) :
  merge_dirs_step2 dir1 dir2 dirO file (fs, status) = Done (fs', status') ->
  fs_frame fs fs' (dirO, d_name file) /\ (skipped file = true -> fs' = fs).
Proof.
  unfold merge_dirs_step2. destruct (skipped file).
  { intros [= <- <-]. split; [apply fs_frame_refl|reflexivity]. }
  destruct (negb (access fs (dir1, d_name file))).
  - destruct (copy fs _ _) as [fs1 st1] eqn:Hc. simpl. intros [= <- <-].
    split; [|discriminate]. now apply copy_fs_frame in Hc as [_ ?].
  - intros [= <- <-]. split; [apply fs_frame_refl|discriminate].
Qed.

(** An entry that the loops do not skip is one of the directory, and not
    reported as [DT_DIR]. *)
Lemma readdir_listed (d : gmap string node) (file : dirent) :
  file ∈ readdir d -> skipped file = false ->
  exists nd, d !! d_name file = Some nd /\ reported_type nd <> DT_DIR.
Proof.
  unfold readdir. intros Hfile Hskip.
  apply elem_of_cons in Hfile as [->|Hfile]; [discriminate|].
  apply elem_of_cons in Hfile as [->|Hfile]; [discriminate|].
  apply list_elem_of_fmap in Hfile as ([name nd] & -> & Hin).
  apply elem_of_map_to_list in Hin. exists nd. split; [assumption|].
  intros Hdir. unfold skipped in Hskip. cbn [d_type] in Hskip.
  rewrite Hdir in Hskip. discriminate.
Qed.

Lemma readdir_unlisted (d : gmap string node) (name : string) :
  (forall nd, d !! name = Some nd -> reported_type nd = DT_DIR) ->
  forall file, file ∈ readdir d -> skipped file = true \/ d_name file <> name.
Proof.
  intros Hname file Hfile. destruct (skipped file) eqn:Hs; [now left|]. right.
  destruct (readdir_listed d file Hfile Hs) as (nd & Hnd & Hty).
  intros Heq. rewrite Heq in Hnd. now apply Hname in Hnd.
Qed.

Lemma readdir_loop_app (body : dirent -> filesystem * Z -> outcome (filesystem * Z))
    (l1 l2 : list dirent) (st : filesystem * Z) :
  readdir_loop body (l1 ++ l2) st =
  (let* st' := readdir_loop body l1 st in readdir_loop body l2 st').
Proof.
  revert st. induction l1 as [|f l1 IH]; intros st; [reflexivity|].
  cbn [app readdir_loop]. destruct (body f st); simpl; [apply IH|reflexivity..].
Qed.

(** A loop whose body writes at most the entry of [dirO] named like the
    file at hand, over any part of the listing: it writes at most the
    entries of [dirO] named like the files it went through. *)
Lemma pass_frame (body : dirent -> filesystem * Z -> outcome (filesystem * Z))
    (dirO : string) (files : list dirent) :
  (forall file fs fs' status status',
     body file (fs, status) = Done (fs', status') ->
     fs_frame fs fs' (dirO, d_name file) /\ (skipped file = true -> fs' = fs)) ->
  forall (fs fs' : filesystem) (status status' : Z),
    readdir_loop body files (fs, status) = Done (fs', status') ->
    (forall k, is_Some (dirs fs' !! k) <-> is_Some (dirs fs !! k)) /\
    (forall q, (q.1 <> dirO \/
                forall file, file ∈ files -> skipped file = true \/ d_name file <> q.2) ->
               lookup_path fs' q = lookup_path fs q).
Proof.
  intros Hbody.
  induction files as [|file files IH]; intros fs fs' status status' Hloop.
  { injection Hloop as <- <-. split; intros; reflexivity. }
  cbn [readdir_loop] in Hloop.
  destruct (body file (fs, status)) as [[fs1 st1]| |] eqn:Hstep;
    simpl in Hloop; try discriminate.
  apply Hbody in Hstep as [[Hother Hkeys] Hskip].
  apply IH in Hloop as [Hkeys' Hother']. split.
  - intros k. rewrite Hkeys'. apply Hkeys.
  - intros q Hq. rewrite Hother'.
    + destruct (skipped file) eqn:Hs; [now rewrite (Hskip eq_refl)|].
      apply Hother. destruct q as [qd qn]. simpl in Hq.
      destruct Hq as [Hq|Hq]; [congruence|].
      destruct (Hq file) as [?|?]; [left|congruence|congruence].
    + destruct Hq as [Hq|Hq]; [now left|]. right.
      intros f Hf. apply Hq. now right.
Qed.

Lemma first_pass_frame (dir1 dir2 dirO : string) (files : list dirent) :
  forall (fs fs' : filesystem) (status status' : Z),
    readdir_loop (merge_dirs_step1 dir1 dir2 dirO) files (fs, status) = Done (fs', status') ->
    (forall k, is_Some (dirs fs' !! k) <-> is_Some (dirs fs !! k)) /\
    (forall q, (q.1 <> dirO \/
                forall file, file ∈ files -> skipped file = true \/ d_name file <> q.2) ->
               lookup_path fs' q = lookup_path fs q).
Proof. apply pass_frame. apply merge_dirs_step1_frame. Qed.

Lemma second_pass_frame (dir1 dir2 dirO : string) (files : list dirent) :
  forall (fs fs' : filesystem) (status status' : Z),
    readdir_loop (merge_dirs_step2 dir1 dir2 dirO) files (fs, status) = Done (fs', status') ->
    (forall k, is_Some (dirs fs' !! k) <-> is_Some (dirs fs !! k)) /\
    (forall q, (q.1 <> dirO \/
                forall file, file ∈ files -> skipped file = true \/ d_name file <> q.2) ->
               lookup_path fs' q = lookup_path fs q).
Proof. apply pass_frame. apply merge_dirs_step2_frame. Qed.

(** The two passes of a call of [merge_dirs] that returns. *)
Lemma merge_dirs_passes (fs fs' : filesystem) (dir1 dir2 dirO : string)
    (d : gmap string node) (status : Z) :
  dirs fs !! dir1 = Some d ->
  merge_dirs fs dir1 dir2 dirO = Done (fs', status) ->
  exists fs1 st1 d1,
    readdir_loop (merge_dirs_step1 dir1 dir2 dirO) (readdir d) (fs, 1) = Done (fs1, st1) /\
    dirs fs1 !! dir1 = Some d1 /\
    readdir_loop (merge_dirs_step2 dir1 dir2 dirO) (readdir d1) (fs1, st1)
    = Done (fs', status).
Proof.
  intros Hd. unfold merge_dirs. rewrite Hd.
  destruct (readdir_loop _ (readdir d) (fs, 1)) as [[fs1 st1]| |] eqn:Hloop;
    cbn [obind]; try discriminate.
  pose proof Hloop as Hf. apply first_pass_frame in Hf as [Hkeys _].
  destruct (Hkeys dir1) as [_ [d1 Hd1]]; [now rewrite Hd|].
  rewrite Hd1. intros H2. exists fs1, st1, d1. auto.
Qed.

(** Nothing the program writes is a dangling link: where one is found
    afterwards, it was there before. *)
Lemma written_no_dangling (fs fs' : filesystem) (p q : path) :
  fs_frame fs fs' p ->
  fs' = fs \/ (exists ino data, lookup_path fs' p = Some (File ino data)) ->
  lookup_path fs' q = Some Dangling -> lookup_path fs q = Some Dangling.
Proof.
  intros [Hother _] [->|(ino & data & Hp)] Hq; [assumption|].
  destruct (decide (q = p)) as [->|Hne]; [congruence|].
  now rewrite <- Hother.
Qed.

Lemma merge_files_written (fs fs' : filesystem) (file1 file2 fileO : path) (status : Z) :
  merge_files fs file1 file2 fileO = Done (fs', status) ->
  fs' = fs \/ exists ino data, lookup_path fs' fileO = Some (File ino data).
Proof.
  intros [(_ & ->)|(_ & fh1 & fh2 & h1 & h2 & written & fs1 & _ & _ & _ & _ & _ & Hw & ->)]%merge_files_inv;
    [now left|right].
  apply fopen_w_spec in Hw as ([ino Hino] & _ & _).
  destruct (fclose_w_spec fs1 fileO (write_entries written "")) as (Hsame & _ & _).
  exists ino, (write_entries written ""). now apply (Hsame ino "").
Qed.

Lemma copy_written (fs fs' : filesystem) (source dest : path) (status : Z) :
  copy fs source dest = (fs', status) ->
  fs' = fs \/ exists ino data, lookup_path fs' dest = Some (File ino data).
Proof.
  unfold copy.
  destruct (stat fs source) as [src|]; [|intros [= <- <-]; auto].
  destruct (match stat fs dest with Some dst => _ | None => false end);
    [intros [= <- <-]; auto|].
  destruct (fopen_w fs dest) as [fs1|] eqn:Hw; [|intros [= <- <-]; auto].
  apply fopen_w_spec in Hw as ([ino Hino] & _ & _).
  destruct (lookup_path fs1 source) as [[i data|i|t i|]|];
    try (intros [= <- <-]; right; eauto).
  destruct (sendfile data _) as [sent|]; [|intros [= <- <-]; right; eauto].
  intros [= <- <-]. right.
  destruct (fclose_w_spec fs1 dest sent) as (Hsame & _ & _).
  exists ino, sent. now apply (Hsame ino "").
Qed.

Lemma first_pass_no_dangling (dir1 dir2 dirO : string) (files : list dirent) :
  forall (fs fs' : filesystem) (status status' : Z) (q : path),
    readdir_loop (merge_dirs_step1 dir1 dir2 dirO) files (fs, status) = Done (fs', status') ->
    lookup_path fs' q = Some Dangling -> lookup_path fs q = Some Dangling.
Proof.
  induction files as [|file files IH]; intros fs fs' status status' q Hloop Hq.
  { now injection Hloop as <- <-. }
  cbn [readdir_loop] in Hloop.
  destruct (merge_dirs_step1 dir1 dir2 dirO file (fs, status)) as [[fs1 st1]| |] eqn:Hstep;
    cbn [obind] in Hloop; try discriminate.
  apply (IH _ _ _ _ q Hloop) in Hq.
  pose proof Hstep as [Hframe _]%merge_dirs_step1_frame.
  apply (written_no_dangling fs fs1 (dirO, d_name file) q Hframe); [|assumption].
  unfold merge_dirs_step1 in Hstep. destruct (skipped file); [left; congruence|].
  destruct (access fs (dir2, d_name file)).
  - destruct (merge_files fs _ _ _) as [[fs2 st2]| |] eqn:Hm; cbn [obind] in Hstep;
      try discriminate.
    injection Hstep as <- _. now apply merge_files_written in Hm.
  - destruct (copy fs _ _) as [fs2 st2] eqn:Hc. injection Hstep as <- _.
    now apply copy_written in Hc.
Qed.

Lemma merge_dirs_first_pass (fs : filesystem) (dir1 dir2 dirO : string)
    (d : gmap string node) :
  dirs fs !! dir1 = Some d -> (forall name, d !! name <> Some Dangling) ->
  merge_dirs fs dir1 dir2 dirO =
  readdir_loop (merge_dirs_step1 dir1 dir2 dirO) (readdir d) (fs, 1).
Proof.
  intros Hd Hnd. unfold merge_dirs. rewrite Hd.
  destruct (readdir_loop _ (readdir d) (fs, 1)) as [[fs' status]| |] eqn:Hloop;
    [|reflexivity..].
  cbn [obind]. pose proof Hloop as Hf. apply first_pass_frame in Hf as [Hkeys _].
  destruct (Hkeys dir1) as [_ [d' Hd']]; [now rewrite Hd|].
  rewrite Hd'. apply merge_dirs_second_pass; [assumption|].
  intros name Hname. apply (Hnd name).
  pose proof (first_pass_no_dangling _ _ _ _ _ _ _ _ (dir1, name) Hloop) as Hq.
  unfold lookup_path in Hq. cbn [fst snd] in Hq. rewrite Hd, Hd' in Hq. now apply Hq.
Qed.

(** X24: for every file system and every three directories, [dir1] holding
    no dangling symbolic link, [merge_dirs] does what its first loop does
    and nothing more: the second loop, which lists [dir1] again and tests
    [access] on what it lists, never copies a file. *)
Theorem merge_dirs_is_first_pass (fs : filesystem) (dir1 dir2 dirO : string)
    (d : gmap string node) :
  dirs fs !! dir1 = Some d -> (forall name, d !! name <> Some Dangling) ->
  merge_dirs fs dir1 dir2 dirO =
  readdir_loop (merge_dirs_step1 dir1 dir2 dirO) (readdir d) (fs, 1).
Proof. apply merge_dirs_first_pass. Qed.

Lemma merge_dirs_is_first_pass_witness :
  merge_dirs scenario "dirA" "dirB" "outDir" =
  readdir_loop (merge_dirs_step1 "dirA" "dirB" "outDir")
    (readdir (<["a.log" := File 11 log_a]> (<["shared.log" := File 12 log_shared_a]> ∅)))
    (scenario, 1).
Proof.
  apply merge_dirs_is_first_pass; [reflexivity|].
  intros name.
  destruct (decide (name = "a.log")) as [->|Ha]; [discriminate|].
  destruct (decide (name = "shared.log")) as [->|Hs]; [discriminate|].
  now rewrite !lookup_insert_ne by congruence.
Defined.

(** X25: a path names something else after [merge_dirs] only if it lies in
    [dirO] and bears the name of an entry of [dir1] that [readdir] does not
    report as a directory.  So the two input directories are left as they
    were unless one of them is the output, and a name found in [dir2] alone
    never appears in [dirO]. *)
Theorem merge_dirs_writes_only (fs fs' : filesystem) (dir1 dir2 dirO : string)
    (d : gmap string node) (status : Z) (q : path) :
  dirs fs !! dir1 = Some d ->
  merge_dirs fs dir1 dir2 dirO = Done (fs', status) ->
  lookup_path fs' q <> lookup_path fs q ->
  q.1 = dirO /\ exists nd, d !! q.2 = Some nd /\ reported_type nd <> DT_DIR.
Proof.
  intros Hd Hm Hq.
  destruct (merge_dirs_passes fs fs' dir1 dir2 dirO d status Hd Hm)
    as (fs1 & st1 & d1 & H1 & Hd1 & H2).
  apply first_pass_frame in H1 as [_ Hother1].
  apply second_pass_frame in H2 as [_ Hother2].
  destruct (decide (q.1 = dirO)) as [Hdir|Hdir].
  2:{ destruct Hq. rewrite Hother2, Hother1; auto. }
  split; [assumption|].
  assert (Hun : (forall nd, d !! q.2 = Some nd -> reported_type nd = DT_DIR) -> False).
  { intros Hname. apply Hq.
    pose proof (readdir_unlisted d q.2 Hname) as Hfiles.
    assert (Hsame : d1 !! q.2 = d !! q.2).
    { specialize (Hother1 (dir1, q.2)). unfold lookup_path in Hother1.
      cbn [fst snd] in Hother1. rewrite Hd, Hd1 in Hother1. apply Hother1. now right. }
    rewrite Hother2, Hother1; [reflexivity|now right|right].
    apply readdir_unlisted. now rewrite Hsame. }
  destruct (d !! q.2) as [nd|]; [|destruct Hun; discriminate].
  exists nd. split; [reflexivity|]. intros Hty. apply Hun. now intros ? [= <-].
Qed.

Lemma merge_dirs_writes_only_witness :
  ("outDir", "a.log").1 = "outDir" /\
  exists nd,
    (<["a.log" := File 11 log_a]> (<["shared.log" := File 12 log_shared_a]> ∅) : gmap string node)
      !! ("outDir", "a.log").2 = Some nd /\ reported_type nd <> DT_DIR.
Proof.
  destruct (merge_dirs scenario "dirA" "dirB" "outDir") as [[fs' status]| |] eqn:Hm;
    [|vm_compute in Hm; discriminate..].
  apply (merge_dirs_writes_only scenario fs' "dirA" "dirB" "outDir" _ status).
  - reflexivity.
  - exact Hm.
  - vm_compute in Hm. injection Hm as <- _. vm_compute. discriminate.
Defined.

Lemma second_pass_keeps_name (dir1 dir2 dirO name : string) (files : list dirent) :
  forall (fs fs' : filesystem) (status status' : Z),
    access fs (dir1, name) = true ->
    readdir_loop (merge_dirs_step2 dir1 dir2 dirO) files (fs, status) = Done (fs', status') ->
    forall dir, lookup_path fs' (dir, name) = lookup_path fs (dir, name).
Proof.
  induction files as [|file files IH]; intros fs fs' status status' Hacc Hloop dir.
  { now injection Hloop as <- <-. }
  cbn [readdir_loop] in Hloop.
  destruct (merge_dirs_step2 dir1 dir2 dirO file (fs, status)) as [[fs1 st1]| |] eqn:Hstep;
    cbn [obind] in Hloop; try discriminate.
  assert (Hkeep : forall dir, lookup_path fs1 (dir, name) = lookup_path fs (dir, name)).
  { unfold merge_dirs_step2 in Hstep.
    destruct (skipped file); [now injection Hstep as <- <-|].
    destruct (access fs (dir1, d_name file)) eqn:Ha; cbn [negb] in Hstep;
      [now injection Hstep as <- <-|].
    destruct (copy fs _ _) as [fs2 st2] eqn:Hc. injection Hstep as <- <-.
    apply copy_fs_frame in Hc as [_ [Hother _]].
    intros dir'. apply Hother. intros [= _ Heq]. congruence. }
  rewrite (IH fs1 fs' st1 status'); [apply Hkeep| |assumption].
  unfold access, stat in *. now rewrite Hkeep.
Qed.

Lemma first_pass_keeps_name (dir1 dir2 dirO name : string) (files : list dirent)
    (fs fs' : filesystem) (status status' : Z) :
  (forall file, file ∈ files -> skipped file = true \/ d_name file <> name) ->
  readdir_loop (merge_dirs_step1 dir1 dir2 dirO) files (fs, status) = Done (fs', status') ->
  (forall k, is_Some (dirs fs' !! k) <-> is_Some (dirs fs !! k)) /\
  (forall dir, lookup_path fs' (dir, name) = lookup_path fs (dir, name)).
Proof.
  intros Hfiles Hloop. apply first_pass_frame in Hloop as [Hkeys Hother].
  split; [assumption|]. intros dir. apply Hother. now right.
Qed.

(** X26: a regular file of [dir1] (other than "." and "..", of at most
    0x7ffff000 bytes) whose name is found neither in [dir2] nor in [dirO],
    the output being a third directory, is in [dirO] with the same bytes once
    [merge_dirs] has returned, whatever happened to the other files. *)
Theorem merge_dirs_copies_first_only (fs fs' : filesystem) (dir1 dir2 dirO name : string)
    (d : gmap string node) (ino : Z) (data : string) (status : Z) :
  dirs fs !! dir1 = Some d -> d !! name = Some (File ino data) ->
  name <> "." -> name <> ".." ->
  Z.of_nat (String.length data) <= 2147479552 ->
  dirO <> dir1 -> is_Some (dirs fs !! dirO) ->
  lookup_path fs (dir2, name) = None -> lookup_path fs (dirO, name) = None ->
  merge_dirs fs dir1 dir2 dirO = Done (fs', status) ->
  fopen_r fs' (dirO, name) = Some data.
Proof.
  intros Hd Hname Hdot Hdotdot Hlen HdirO Hout H2 HO Hdirs.
  destruct (merge_dirs_passes fs fs' dir1 dir2 dirO d status Hd Hdirs)
    as (fsa & sta & da & Hm & _ & Hsecond).
  assert (Hfirst : fopen_r fsa (dirO, name) = Some data /\
                   lookup_path fsa (dir1, name) = Some (File ino data)).
  2:{ destruct Hfirst as [Hf Hsrc].
      assert (Hacc : access fsa (dir1, name) = true)
        by (unfold access, stat; now rewrite Hsrc).
      unfold fopen_r in *.
      now rewrite (second_pass_keeps_name dir1 dir2 dirO name _ _ _ _ _ Hacc Hsecond). }
  split.
  2:{ apply first_pass_frame in Hm as [_ Hother]. rewrite Hother by (left; cbn [fst]; congruence).
      unfold lookup_path. cbn [fst snd]. now rewrite Hd. }
  assert (Hin : (name, File ino data) ∈ map_to_list d) by now apply elem_of_map_to_list.
  apply list_elem_of_split in Hin as (m1 & m2 & Hsplit).
  pose proof (NoDup_fst_map_to_list d) as Hnd.
  rewrite Hsplit, fmap_app, fmap_cons in Hnd. cbn [fst] in Hnd.
  apply NoDup_app in Hnd as (_ & Hm1 & Hm2%NoDup_cons_1_1).
  set (mk := fun '(n, nd) => mk_dirent n (reported_type nd)).
  set (file := mk_dirent name DT_REG).
  assert (Hlist : readdir d =
    (mk_dirent "." DT_DIR :: mk_dirent ".." DT_DIR :: map mk m1) ++ file :: map mk m2).
  { unfold readdir. fold mk. rewrite Hsplit, map_app. reflexivity. }
  assert (Hnames : forall (m : list (string * node)) f,
    name ∉ m.*1 -> f ∈ map mk m -> d_name f <> name).
  { intros m f Hnot Hf. apply list_elem_of_fmap in Hf as ([n nd] & -> & Hin).
    simpl. intros ->. apply Hnot. apply list_elem_of_fmap. now exists (name, nd). }
  rewrite Hlist, readdir_loop_app in Hm.
  destruct (readdir_loop _ (_ :: _ :: map mk m1) (fs, 1)) as [[fs1 st1]| |] eqn:H1;
    cbn [obind] in Hm; try discriminate.
  apply (first_pass_keeps_name dir1 dir2 dirO name) in H1 as [Hkeys1 Hkeep1].
  2:{ intros f Hf. apply elem_of_cons in Hf as [->|Hf]; [now left|].
      apply elem_of_cons in Hf as [->|Hf]; [now left|]. right.
      apply (Hnames m1); [|assumption].
      intros Hin. apply (Hm1 name Hin). left. }
  cbn [readdir_loop] in Hm.
  assert (Hstep : exists fs2,
    merge_dirs_step1 dir1 dir2 dirO file (fs1, st1) = Done (fs2, Z.land st1 1) /\
    fopen_r fs2 (dirO, name) = Some data).
  { unfold merge_dirs_step1, skipped, file, access, stat. cbn [d_type d_name].
    destruct (String.eqb_spec name "."); [contradiction|].
    destruct (String.eqb_spec name ".."); [contradiction|]. cbn [orb].
    rewrite Hkeep1, H2.
    destruct (copy_to_other fs1 (dir1, name) (dirO, name) ino data) as (fs2 & -> & Hf & _).
    - rewrite Hkeep1. unfold lookup_path. simpl. now rewrite Hd.
    - assumption.
    - congruence.
    - simpl. now apply Hkeys1.
    - intros nd. rewrite Hkeep1, HO. discriminate.
    - simpl. eauto. }
  destruct Hstep as (fs2 & Hstep & Hf). rewrite Hstep in Hm. cbn [obind] in Hm.
  apply (first_pass_keeps_name dir1 dir2 dirO name) in Hm as [_ Hkeep2].
  - unfold fopen_r in *. now rewrite Hkeep2.
  - intros f Hf'. right. now apply (Hnames m2).
Qed.

Lemma merge_dirs_copies_first_only_witness :
  exists fs', merge_dirs scenario "dirA" "dirB" "outDir" = Done (fs', 1) /\
              fopen_r fs' ("outDir", "a.log") = Some log_a.
Proof.
  destruct (merge_dirs scenario "dirA" "dirB" "outDir") as [[fs' status]| |] eqn:Hm;
    [|vm_compute in Hm; discriminate..].
  exists fs'. split.
  - vm_compute in Hm. now injection Hm as <- <-.
  - apply (merge_dirs_copies_first_only scenario fs' "dirA" "dirB" "outDir" "a.log"
             (<["a.log" := File 11 log_a]> (<["shared.log" := File 12 log_shared_a]> ∅))
             11 log_a status).
    + vm_compute. reflexivity.
    + vm_compute. reflexivity.
    + discriminate.
    + discriminate.
    + vm_compute. discriminate.
    + discriminate.
    + exists ∅. vm_compute. reflexivity.
    + vm_compute. reflexivity.
    + vm_compute. reflexivity.
    + exact Hm.
Defined.

(** ** The array of entries and its block *)

(** X27: when the block holds a multiple of [pre_alloc_size] pointers and
    the entries fit in it, as is the case for the empty array behind a NULL
    pointer, [insert_hist_entry] stores the new entry inside the block, after
    growing it when it is full; the entries then are the old ones followed by
    the new one, and the same holds again for the next call. *)
Theorem insert_hist_entry_in_block (capacity : nat) (entries : list entry_ptr)
    (entry : entry_ptr) (pre_alloc_size : nat) :
  (0 < pre_alloc_size)%nat ->
  (length entries <= capacity)%nat -> (capacity mod pre_alloc_size = 0)%nat ->
  exists capacity',
    insert_hist_entry_block capacity entries entry pre_alloc_size
      = Done (capacity', insert_hist_entry entries entry) /\
    (length (insert_hist_entry entries entry) <= capacity')%nat /\
    (capacity' mod pre_alloc_size = 0)%nat.
Proof.
  intros Hpre Hfit Hmult. unfold insert_hist_entry_block, insert_hist_entry.
  rewrite length_app. cbn [length].
  destruct (length entries =? 0)%nat eqn:Hsize.
  - apply Nat.eqb_eq in Hsize. rewrite Hsize.
    destruct (Nat.ltb_spec 0 pre_alloc_size) as [_|]; [|lia].
    exists pre_alloc_size. split; [reflexivity|]. split; [lia|].
    now apply Nat.Div0.mod_same.
  - apply Nat.eqb_neq in Hsize.
    destruct (Nat.eqb_spec pre_alloc_size 0) as [|_]; [lia|].
    destruct (Nat.eqb_spec (length entries mod pre_alloc_size) 0) as [Hfull|Hroom]; cbn [negb].
    + destruct (Nat.ltb_spec (length entries) (length entries + pre_alloc_size)) as [_|]; [|lia].
      exists (length entries + pre_alloc_size)%nat. split; [reflexivity|]. split; [lia|].
      rewrite <- Nat.Div0.add_mod_idemp_r, Nat.Div0.mod_same, Nat.add_0_r.
      assumption.
    + assert (length entries <> capacity) by congruence.
      destruct (Nat.ltb_spec (length entries) capacity) as [_|]; [|lia].
      exists capacity. split; [reflexivity|]. split; [lia|assumption].
Qed.

Lemma insert_hist_entry_in_block_witness :
  exists capacity',
    insert_hist_entry_block 0 [] good_entry 1000
      = Done (capacity', insert_hist_entry [] good_entry) /\
    (length (insert_hist_entry [] good_entry) <= capacity')%nat /\
    (capacity' mod 1000 = 0)%nat.
Proof.
  apply insert_hist_entry_in_block.
  - lia.
  - simpl. lia.
  - reflexivity.
Defined.

(** ** The command line *)

Lemma options_loop_first (arg : string) (args : list string) :
  options_loop (arg :: args) = negb (differ arg "--").
Proof.
  cbn [options_loop]. destruct (differ arg "--") eqn:Hd; [reflexivity|].
  apply differ_false in Hd.
  assert (Hhelp : differ arg "--help" = true).
  { destruct (differ arg "--help") eqn:Hh; [reflexivity|].
    apply differ_false in Hh. rewrite Hd in Hh. discriminate. }
  now rewrite Hhelp.
Qed.

(** X28: [main] ends in the usage text exactly when it is given fewer than
    two or more than three arguments, or when its first argument is "--".
    The loop that looks for "--help" and "-h" leaves at the first argument
    that is not "--", so neither of the two is ever recognised: they are
    taken for the path of the first source. *)
Theorem main_usage_iff (fs : filesystem) (argv : list string) :
  main fs argv = Done Usage <->
  (length argv < 3)%nat \/ (4 < length argv)%nat \/
  exists prog arg1 rest, argv = prog :: arg1 :: rest /\ c_str arg1 = "--".
Proof.
  unfold main.
  destruct (Nat.ltb_spec (length argv) 3) as [Hlt|Hge]; cbn [orb].
  { split; [now left|reflexivity]. }
  destruct (Nat.ltb_spec 4 (length argv)) as [Hlt|Hle].
  { split; [right; now left|reflexivity]. }
  destruct argv as [|prog [|arg1 [|arg2 rest]]]; try (simpl in Hge; lia).
  cbn [tail]. rewrite options_loop_first.
  destruct (differ arg1 "--") eqn:Hd; cbn [negb].
  - split.
    + intros H. exfalso.
      destruct (stat_is_dir fs arg1) as [d1|]; [|discriminate].
      destruct (stat_is_dir fs arg2) as [d2|]; [|discriminate].
      destruct (negb (Bool.eqb d1 d2)); [discriminate|].
      destruct rest as [|arg3 rest].
      * destruct d1; [destruct (merge_dirs fs arg1 arg2 arg1)|
                      destruct (merge_files fs _ _ _)]; discriminate.
      * destruct d1.
        -- destruct (stat_is_dir fs arg3) as [[|]|]; try discriminate.
           destruct (merge_dirs fs arg1 arg2 arg3); discriminate.
        -- destruct (merge_files fs _ _ _); discriminate.
    + intros [H|[H|(p & a & r & [= _ <- _] & Hc)]]; [lia..|].
      assert (differ arg1 "--" = false) by now apply differ_false.
      congruence.
  - split; [|reflexivity]. intros _. right. right.
    exists prog, arg1, (arg2 :: rest). split; [reflexivity|]. now apply differ_false in Hd.
Qed.

(** X29: leaving out the output argument is the same as giving the first
    source as output: the run ends in the same way, with the same file
    system and exit code. *)
Theorem main_in_place (fs : filesystem) (prog arg1 arg2 : string) :
  main fs [prog; arg1; arg2] = main fs [prog; arg1; arg2; arg1].
Proof.
  unfold main. cbn [length Nat.ltb Nat.leb orb tail]. rewrite !options_loop_first.
  destruct (negb (differ arg1 "--")); [reflexivity|].
  destruct (stat_is_dir fs arg1) as [[|]|] eqn:H1; try reflexivity;
    destruct (stat_is_dir fs arg2) as [[|]|]; reflexivity.
Qed.

(** A path that [merge_dirs] builds from a directory and a name without "/"
    is split into the two again. *)
Lemma split_path_join (dir name : string) :
  split_last name = None -> split_path (dir +:+ "/" +:+ name) = (dir, name).
Proof.
  intros Hname. unfold split_path.
  assert (H : split_last (dir +:+ "/" +:+ name) = Some (dir, name)).
  { induction dir as [|c dir IH].
    - change ("" +:+ "/" +:+ name) with (String "/" name). cbn [split_last].
      now rewrite Hname.
    - rewrite append_cons. cbn [split_last]. now rewrite IH. }
  now rewrite H.
Qed.

(** ** The count field, in general *)

Lemma read_entry_counted (kind ts count : string) (ls : list string) (rest : FILE_in) :
  String.length kind = 2%nat -> is_text kind ->
  String.length ts = 18%nat -> is_text ts ->
  String.length count = 3%nat -> is_text count ->
  atoi count + 1 = Z.of_nat (length ls) -> Forall is_line ls ->
  read_entry (header kind ts count +:+ cat ls +:+ rest) =
  Entry (mk_hist_entry kind ts count ls) rest.
Proof.
  intros Hk Hkt Ht Htt Hc Hct Hatoi Hls.
  unfold header, read_entry, fgets. rewrite !append_assoc.
  replace (Nat.pred 3) with (String.length kind) by now rewrite Hk.
  rewrite fgets_bytes_text by assumption.
  unfold strlen. rewrite c_str_text, Hk by assumption. cbn [Nat.eqb negb].
  rewrite fgetc_space.
  replace (Nat.pred 19) with (String.length ts) by now rewrite Ht.
  rewrite fgets_bytes_text by assumption. rewrite fgetc_space.
  replace (Nat.pred 4) with (String.length count) by now rewrite Hc.
  rewrite fgets_bytes_text by assumption. rewrite fgetc_space.
  destruct (atoi count <? -1) eqn:Hneg; [apply Z.ltb_lt in Hneg; lia|].
  replace (Z.to_nat (atoi count + 1)) with (length ls) by lia.
  now rewrite read_lines_cat.
Qed.

(** X30: the count of following lines need not be three digits padded with
    zeros.  Whatever three text bytes stand in its place, when [atoi] reads
    them as the number of lines minus one (" 12", "+05", or "abc" for 0),
    the record is read as one entry and written back byte for byte, the
    count field as it was. *)
Theorem read_write_any_count (kind ts count : string) (ls : list string)
    (rest : FILE_in) (out : FILE_out) :
  String.length kind = 2%nat -> is_text kind ->
  String.length ts = 18%nat -> is_text ts ->
  String.length count = 3%nat -> is_text count ->
  atoi count + 1 = Z.of_nat (length ls) -> Forall is_line ls ->
  exists entry,
    read_entry (header kind ts count +:+ cat ls +:+ rest) = Entry entry rest /\
    write_entry entry out = out +:+ header kind ts count +:+ cat ls.
Proof.
  intros Hk Hkt Ht Htt Hc Hct Hatoi Hls.
  exists (mk_hist_entry kind ts count ls). split; [now apply read_entry_counted|].
  rewrite write_entry_entry_text. unfold entry_text, header, body.
  cbn [type timestamp follow_lines lines].
  rewrite !c_str_text, body_lines by assumption.
  now rewrite !append_assoc.
Qed.

Lemma read_write_any_count_witness :
  exists entry,
    read_entry (header "MR" sample_ts "abc" +:+ cat ["x" +:+ nl] +:+ good_record)
      = Entry entry good_record /\
    write_entry entry "" = "" +:+ header "MR" sample_ts "abc" +:+ cat ["x" +:+ nl].
Proof.
  apply read_write_any_count.
  - reflexivity.
  - reflexivity.
  - reflexivity.
  - reflexivity.
  - reflexivity.
  - reflexivity.
  - reflexivity.
  - repeat constructor. exists "x". split; reflexivity.
Defined.
